(** * runtime/debug/stack.go: a shallow embedding and its verification

    The Go file formats the calling goroutine's stack in two ways:
    [stack] (behind [Stack] and [PrintStack]) produces an annotated,
    multi-line trace, and [Callers] produces a one-line list of
    [file:line] pairs.  [itoa]/[uitoa] print integers in decimal,
    [source] picks and trims a line of a loaded file and [function]
    cleans up a symbol name.

    Go values are embedded as follows.
    - [int] and [uint] are 64 bits wide (the source sizes its digit buffer
      for a "64bit value base 10"); they are integers of [Z] and every
      arithmetic operation that can leave the range is wrapped explicitly.
    - [string] and [[]byte] are lists of 8-bit characters; a [[]byte] that
      may be [nil] is an [option].
    - run-time panics (index out of range, [makeslice: len out of range])
      are an outcome of their own in the [result] type. *)

From Stdlib Require Import ZArith Lia Bool Ascii String List.
From Stdlib Require Import DecimalString HexadecimalString.
From Stdlib Require DecimalPos DecimalN.
From stdpp Require Import base list strings.
Import ListNotations.

Local Open Scope Z_scope.

(** ** Machine integers *)

Module Machine.

Definition minInt : Z := - 2 ^ 63.
Definition maxInt : Z := 2 ^ 63 - 1.
Definition maxUint : Z := 2 ^ 64 - 1.

(** Wrap-around of [uint] arithmetic. *)
Definition wrapU (x : Z) : Z := x mod 2 ^ 64.

(** Wrap-around of [int] arithmetic (two's complement). *)
Definition wrapI (x : Z) : Z := (x + 2 ^ 63) mod 2 ^ 64 - 2 ^ 63.

Definition isInt (x : Z) : Prop := minInt <= x <= maxInt.
Definition isUint (x : Z) : Prop := 0 <= x <= maxUint.

(** The conversion [uint(x)] of an [int]. *)
Definition uint_of_int (x : Z) : Z := wrapU x.

(** The conversion [byte(x)] of a [uint]: the low eight bits. *)
Definition byte_of_uint (x : Z) : ascii := ascii_of_N (Z.to_N (x mod 256)).

Definition code (c : ascii) : Z := Z.of_N (N_of_ascii c).

End Machine.
Import Machine.

(** ** Outcomes of a Go computation *)

Inductive result (A : Type) : Type :=
| Ok (a : A)
| Panic
| OutOfFuel.
Arguments Ok {A} a.
Arguments Panic {A}.
Arguments OutOfFuel {A}.

(** The error monad threading panics through a sequence of statements;
    with the instances below, [x ← r; k] runs [k] on the value of [r] and
    stops at the first panic. *)
#[export] Instance result_ret : MRet result := fun A a => Ok a.

#[export] Instance result_bind : MBind result := fun A B k r =>
  match r with
  | Ok a => k a
  | Panic => Panic
  | OutOfFuel => OutOfFuel
  end.

(** ** Byte strings *)

Abbreviation bytes := (list ascii).

Definition str (s : string) : bytes := list_ascii_of_string s.

(** An indexed store [buf[i] = x]; Go panics when [i] is out of range. *)
Definition store (buf : bytes) (i : Z) (x : ascii) : result bytes :=
  if (0 <=? i) && (i <? Z.of_nat (length buf))
  then Ok (<[Z.to_nat i := x]> buf)
  else Panic.

(** The slice expression [buf[i:]]; Go panics when [i] is out of range. *)
Definition slice_from (buf : bytes) (i : Z) : result bytes :=
  if (0 <=? i) && (i <=? Z.of_nat (length buf))
  then Ok (drop (Z.to_nat i) buf)
  else Panic.

(** ** [uitoa] and [itoa] *)

(** [var buf [20]byte]: twenty zero bytes. *)
Definition buf20 : bytes := replicate 20 zero.

(** The loop [for val >= 10 { q := val / 10; buf[i] = byte('0' + val - q*10);
    i--; val = q }].  Every iteration stores into a fresh slot of [buf], so
    [fuel] iterations with [fuel = len(buf)] are all the loop can make
    before a store panics. *)
Fixpoint uitoa_loop (fuel : nat) (buf : bytes) (i val : Z)
  : result (bytes * Z * Z) :=
  if 10 <=? val then
    match fuel with
    | O => OutOfFuel
    | S fuel' =>
        let q := val / 10 in
        let digit := wrapU (wrapU (48 + val) - wrapU (q * 10)) in
        buf' ← store buf i (byte_of_uint digit);
        uitoa_loop fuel' buf' (i - 1) q
    end
  else Ok (buf, i, val).

Definition uitoa (val : Z) : result bytes :=
  if val =? 0 then Ok (str "0")
  else
    let buf := buf20 in
    let i := Z.of_nat (length buf) - 1 in
    '(buf, i, val) ← uitoa_loop (length buf) buf i val;
    buf' ← store buf i (byte_of_uint (wrapU (48 + val)));
    slice_from buf' i.

Definition itoa (val : Z) : result bytes :=
  if val <? 0 then
    s ← uitoa (uint_of_int (wrapI (- val)));
    Ok (str "-" ++ s)
  else uitoa (uint_of_int val).

(** *** Reading decimal text back

    The reference against which the encoder is checked: the value of a
    non-empty string of decimal digits, with an optional leading minus
    sign for the signed reader. *)

Definition isDigit (c : ascii) : bool := (48 <=? code c) && (code c <=? 57).

Definition step10 (acc : Z) (c : ascii) : Z := acc * 10 + (code c - 48).

Definition digitsValue (s : bytes) : Z := fold_left step10 s 0.

Definition parseUint (s : bytes) : option Z :=
  match s with
  | [] => None
  | _ :: _ => if forallb isDigit s then Some (digitsValue s) else None
  end.

Definition parseInt (s : bytes) : option Z :=
  match s with
  | c :: t => if Ascii.eqb c "-" then Z.opp <$> parseUint t else parseUint s
  | [] => None
  end.

(** The character of a decimal digit. *)
Definition digitChar (d : Z) : ascii := ascii_of_N (Z.to_N (48 + d)).

(** The decimal numeral of an integer, as a pure function: the digits are
    produced least significant first and consed onto [acc].  Twenty
    rounds cover every 64-bit value. *)
Fixpoint udigits (rounds : nat) (n : Z) (acc : bytes) : bytes :=
  match rounds with
  | O => acc
  | S r =>
      let acc' := digitChar (n mod 10) :: acc in
      if n <? 10 then acc' else udigits r (n / 10) acc'
  end.

Definition udecimal (n : Z) : bytes := udigits 20 n [].

Definition decimal (n : Z) : bytes :=
  if n <? 0 then str "-" ++ udecimal (- n) else udecimal n.

(** ** The parts of Go's [bytes] package the file uses

    These follow the package documentation; all of them work byte by
    byte, which is what the package does for the arguments passed here. *)

Fixpoint HasPrefix (s prefix : bytes) {struct prefix} : bool :=
  match prefix, s with
  | [], _ => true
  | _ :: _, [] => false
  | p :: prefix', c :: s' => Ascii.eqb c p && HasPrefix s' prefix'
  end.

(** [bytes.Index(s, sep)]: the index of the first instance of [sep] in
    [s], or [-1]. *)
Fixpoint Index (s sep : bytes) : Z :=
  if HasPrefix s sep then 0
  else match s with
       | [] => -1
       | _ :: s' => let r := Index s' sep in if r <? 0 then -1 else r + 1
       end.

(** [bytes.Replace(s, old, new, -1)] for a non-empty [old]: every
    non-overlapping instance of [old], found left to right, becomes [new].
    [skip] counts the bytes of a matched instance still to be dropped. *)
Fixpoint Replace_from (skip : nat) (s old new : bytes) : bytes :=
  match s with
  | [] => []
  | c :: s' =>
      match skip with
      | S k => Replace_from k s' old new
      | O =>
          if HasPrefix s old
          then new ++ Replace_from (length old - 1) s' old new
          else c :: Replace_from 0 s' old new
      end
  end.

Definition Replace (s old new : bytes) : bytes := Replace_from 0 s old new.

Definition inCutset (cutset : bytes) (c : ascii) : bool :=
  existsb (Ascii.eqb c) cutset.

Fixpoint TrimLeft (s cutset : bytes) : bytes :=
  match s with
  | [] => []
  | c :: s' => if inCutset cutset c then TrimLeft s' cutset else s
  end.

Definition TrimRight (s cutset : bytes) : bytes :=
  reverse (TrimLeft (reverse s) cutset).

(** [bytes.Trim(s, cutset)] for an ASCII [cutset]. *)
Definition Trim (s cutset : bytes) : bytes :=
  TrimLeft (TrimRight s cutset) cutset.

(** [bytes.Split(s, []byte{sep})]: the pieces between the separators; a
    string without separator is a single piece. *)
Fixpoint Split (s : bytes) (sep : ascii) : list bytes :=
  match s with
  | [] => [[]]
  | c :: s' =>
      if Ascii.eqb c sep then [] :: Split s' sep
      else match Split s' sep with
           | [] => [[c]]
           | piece :: pieces => (c :: piece) :: pieces
           end
  end.

(** Indexing [l[i]]; Go panics when [i] is out of range. *)
Definition index {A : Type} (l : list A) (i : Z) : result A :=
  if (0 <=? i) && (i <? Z.of_nat (length l))
  then match l !! Z.to_nat i with Some x => Ok x | None => Panic end
  else Panic.

(** ** The package-level constants *)

Definition dunno : bytes := str "???".
Definition centerDot : bytes := [ascii_of_nat 194; ascii_of_nat 183].
Definition dot : bytes := str ".".

Definition tab : ascii := ascii_of_nat 9.
Definition newline : ascii := ascii_of_nat 10.
Definition spaceTab : bytes := [" "%char; tab].

(** ** [source] *)

(** The characters [source] trims: space and tab. *)
Definition blank (c : ascii) : Prop := c = " "%char \/ c = tab.

Definition source (lines : list bytes) (n : Z) : result bytes :=
  if (n <? 0) || (Z.of_nat (length lines) <=? n) then Ok dunno
  else
    line ← index lines n;
    Ok (Trim line spaceTab).

(** ** The host runtime

    What the Go runtime contributes is a parameter of the development:
    the call chain of the goroutine (a list of frames, innermost first),
    the symbol table behind [runtime.FuncForPC] and the file system
    behind [ioutil.ReadFile]. *)

Record Frame : Type := mkFrame {
  PC : Z;          (* uintptr *)
  File : bytes;    (* string *)
  Line : Z         (* int *)
}.

Definition zeroFrame : Frame := mkFrame 0 [] 0.

(** [make([]uintptr, len)]: the runtime's [makeslice] panics on a negative
    length and on one whose byte size exceeds [maxAlloc], the size of the
    address space the allocator manages (2^48 on 64-bit Linux); whether
    that much memory is really left is not modelled. *)
Definition maxAlloc : Z := 2 ^ 48.
Definition ptrSize : Z := 8.

Definition make_uintptr (len : Z) : result (list Z) :=
  if (0 <=? len) && (len * ptrSize <=? maxAlloc)
  then Ok (replicate (Z.to_nat len) 0)
  else Panic.

(** [runtime.Callers(0, pc)]: writes the program counters of the innermost
    frames into [pc], as many as fit, and returns how many it wrote. *)
Definition runtime_Callers (chain : list Frame) (pc : list Z) : list Z * Z :=
  let n := Nat.min (length pc) (length chain) in
  (map PC (take n chain) ++ drop n pc, Z.of_nat n).

(** [runtime.CallersFrames(pc)]: the frames of the program counters
    gathered by [runtime.Callers], in order.  Every program counter stands
    for one frame of the chain; the expansion of inlined calls into
    several frames is not modelled. *)
Definition runtime_CallersFrames (chain : list Frame) (pc : list Z)
  : list Frame := take (length pc) chain.

(** [frames.Next()]: the next frame and whether another one follows; the
    zero frame once the iterator is exhausted. *)
Definition Next (frames : list Frame) : Frame * bool * list Frame :=
  match frames with
  | [] => (zeroFrame, false, [])
  | f :: rest => (f, match rest with [] => false | _ :: _ => true end, rest)
  end.

(** [append(b, x...)] on a slice that may be [nil]: appending nothing to
    [nil] leaves [nil]. *)
Definition append (b : option bytes) (x : bytes) : option bytes :=
  match b, x with
  | None, [] => None
  | None, _ :: _ => Some x
  | Some l, _ => Some (l ++ x)
  end.

(** ** [Callers] *)

(** The loop [for i := 0; i < n+max; i++]; [trips] is the number of
    iterations the loop condition still allows, [bound - i]. *)
Fixpoint Callers_loop (trips : nat) (i n : Z) (frames : list Frame)
    (b : option bytes) (prev : bool) : result (option bytes) :=
  match trips with
  | O => Ok b
  | S trips' =>
      let '(frame, more, frames') := Next frames in
      '(b, prev) ←
        (if n <=? i then
           let b := if prev : bool then append b (str " ") else b in
           let b := append b (File frame) in
           let b := append b (str ":") in
           line ← itoa (Line frame);
           Ok (append b line, true)
         else Ok (b, prev));
      if more : bool then Callers_loop trips' (i + 1) n frames' b prev
      else Ok b
  end.

(** The first two statements: the buffer of [max*2] program counters and
    the batch [runtime.Callers] fills it with. *)
Definition Callers_batch (chain : list Frame) (max : Z) : result (list Z) :=
  pc ← make_uintptr (wrapI (max * 2));
  let '(pc, count) := runtime_Callers chain pc in
  Ok (take (Z.to_nat count) pc).

Definition Callers (chain : list Frame) (n max : Z) : result (option bytes) :=
  pc ← Callers_batch chain max;
  if Z.of_nat (length pc) =? 0 then Ok None
  else
    let frames := runtime_CallersFrames chain pc in
    Callers_loop (Z.to_nat (wrapI (n + max))) 0 n frames None false.

(** ** [function] and [stack] *)

(** [fmt]'s verbs [%d] on an [int] and [%x] on a [uintptr]. *)
Definition fmt_d (x : Z) : bytes :=
  str (DecimalString.NilZero.string_of_int (Z.to_int x)).

Definition fmt_x (x : Z) : bytes :=
  str (HexadecimalString.NilZero.string_of_uint (N.to_hex_uint (Z.to_N x))).

(** The state of one run of [stack]: the output buffer, the currently
    loaded file and its lines, and (a ghost field) the files handed to
    [ioutil.ReadFile] so far, oldest first. *)
Record walk : Type := mkWalk {
  buf : bytes;
  lines : list bytes;
  lastFile : bytes;
  reads : list bytes
}.

Definition walk0 : walk := mkWalk [] [] [] [].

Section Host.

(** [runtime.FuncForPC(pc)] followed by [fn.Name()]; [None] is [nil]. *)
Variable FuncForPC : Z -> option bytes.

(** [ioutil.ReadFile(file)]; [None] is a non-nil error. *)
Variable ReadFile : bytes -> option bytes.

Definition function (pc : Z) : result bytes :=
  match FuncForPC pc with
  | None => Ok dunno
  | Some name =>
      let period := Index name dot in
      name ← (if 0 <=? period then slice_from name (period + 1)
              else Ok name);
      Ok (Replace name centerDot dot)
  end.

(** [fmt.Fprintf(buf, "%s:%d (0x%x)\n", file, line, pc)]. *)
Definition location (fr : Frame) : bytes :=
  File fr ++ str ":" ++ fmt_d (Line fr)
    ++ str " (0x" ++ fmt_x (PC fr) ++ str ")" ++ [newline].

(** The part of the loop body that loads the file of the frame;
    [inl] is the [continue] of the failed read. *)
Definition load (w : walk) (file : bytes) : walk + walk :=
  if bool_decide (file ≠ lastFile w) then
    match ReadFile file with
    | None =>
        inl (mkWalk (buf w) (lines w) (lastFile w) (reads w ++ [file]))
    | Some data =>
        inr (mkWalk (buf w) (Split data newline) file (reads w ++ [file]))
    end
  else inr w.

(** One iteration of the loop of [stack] on a frame that
    [runtime.Caller] reported with [ok]. *)
Definition stack_body (w : walk) (fr : Frame) : result walk :=
  let w := mkWalk (buf w ++ location fr) (lines w) (lastFile w) (reads w) in
  match load w (File fr) with
  | inl w => Ok w
  | inr w =>
      let line := wrapI (Line fr - 1) in
      name ← function (PC fr);
      text ← source (lines w) line;
      Ok (mkWalk (buf w ++ [tab] ++ name ++ str ": " ++ text ++ [newline])
                 (lines w) (lastFile w) (reads w))
  end.

(** The loop [for i := 2; ; i++]: [runtime.Caller(i)] reports the frames
    of the chain one after the other and [!ok] behind the last. *)
Fixpoint stack_loop (frames : list Frame) (w : walk) : result walk :=
  match frames with
  | [] => Ok w
  | fr :: rest => w' ← stack_body w fr; stack_loop rest w'
  end.

Definition stack_run (chain : list Frame) : result walk :=
  stack_loop (drop 2 chain) walk0.

Definition stack (chain : list Frame) : result bytes :=
  w ← stack_run chain; Ok (buf w).

End Host.

(** The exported entry points.  [Stack] returns what [stack] returns;
    [PrintStack] writes it to standard error, here the bytes written so
    far, and drops the result of the write. *)
Definition Stack := stack.

Definition PrintStack (FuncForPC : Z -> option bytes)
    (ReadFile : bytes -> option bytes) (stderr : bytes) (chain : list Frame)
  : result bytes :=
  out ← stack FuncForPC ReadFile chain; Ok (stderr ++ out).

(** ** Sample frames and hosts for the worked examples *)

Module Sample.

Definition fA : Frame := mkFrame 4096 (str "a.go") 10.
Definition fB : Frame := mkFrame 4100 (str "b.go") 7.
Definition fC : Frame := mkFrame 4200 (str "c.go") (-3).
Definition fD : Frame := mkFrame 4300 (str "d.go") 21.

(** A frame whose file name holds a newline. *)
Definition fNL : Frame := mkFrame 4400 (str "a" ++ [newline] ++ str "b.go") 1.

(** A frame whose file is not known: the empty name. *)
Definition fUnknown : Frame := mkFrame 4500 [] 0.

(** Two frames in a file [gone.go] that cannot be read. *)
Definition fX1 : Frame := mkFrame 4600 (str "gone.go") 5.

(** A host without symbols and without readable files. *)
Definition noSymbols : Z -> option bytes := fun _ => None.
Definition noFiles : bytes -> option bytes := fun _ => None.

(** A host with one readable file, [a.go], and one known function. *)
Definition aGo : bytes :=
  str "package a" ++ [newline] ++ [tab] ++ str "x := 1 " ++ [newline].
Definition fA2 : Frame := mkFrame 4096 (str "a.go") 2.
Definition fA3 : Frame := mkFrame 4104 (str "a.go") 1.
Definition oneFile (file : bytes) : option bytes :=
  if bool_decide (file = str "a.go") then Some aGo else None.
Definition oneSymbol (pc : Z) : option bytes :=
  if pc =? 4096
  then Some (str "example/pkg.Type" ++ centerDot ++ str "Method")
  else None.

End Sample.

(** ** Rendering of the compact list, as the documentation words it *)

Definition pair_text (fr : Frame) : bytes :=
  File fr ++ str ":" ++ decimal (Line fr).

Fixpoint join (sep : bytes) (pieces : list bytes) : bytes :=
  match pieces with
  | [] => []
  | [p] => p
  | p :: rest => p ++ sep ++ join sep rest
  end.

(** The compact list of a window of frames: absent for no frame, else
    the pairs joined by single spaces. *)
Definition render (window : list Frame) : option bytes :=
  match window with
  | [] => None
  | _ :: _ => Some (join (str " ") (map pair_text window))
  end.

(** The slice [b] after the pairs of [l] have been appended to it, each
    pair but the very first of the slice behind a space. *)
Fixpoint emit (b : option bytes) (l : list Frame) : option bytes :=
  match l with
  | [] => b
  | fr :: l' =>
      emit (Some (match b with None => [] | Some x => x ++ str " " end
                  ++ pair_text fr)) l'
  end.

(** The value [prev] has in the loop of [Callers] when the slice is [b]. *)
Definition started (b : option bytes) : bool :=
  match b with Some _ => true | None => false end.






(** A sub-slice [s[i:i+len(p)]] equal to [p]. *)
Definition occurs (p s : bytes) : Prop := exists pre post, s = pre ++ p ++ post.

(** ** The trace, as its format is documented

    One block for each frame: the location line and, when the file of
    the frame can be read, a second line with the name of the function
    and the text of the line.  The definitions follow the comments of the
    source ("we see [runtime/debug.*T·ptrmethod] and want
    [*T.ptrmethod]"; "in stack trace, lines are 1-indexed"); they know
    nothing of the file that is kept loaded from one frame to the next. *)

(** What follows the first dot of a name, if it holds one. *)
Fixpoint after_first_dot (s : bytes) : option bytes :=
  match s with
  | [] => None
  | c :: t => if Ascii.eqb c "." then Some t else after_first_dot t
  end.

Definition display_name (FuncForPC : Z -> option bytes) (pc : Z) : bytes :=
  match FuncForPC pc with
  | None => dunno
  | Some s => Replace (default s (after_first_dot s)) centerDot dot
  end.

(** The text shown for line [k], counted from 1, of a file. *)
Definition line_text (data : bytes) (k : Z) : bytes :=
  if 1 <=? k then
    match Split data newline !! Z.to_nat (k - 1) with
    | Some line => Trim line spaceTab
    | None => dunno
    end
  else dunno.

Definition second_line (name text : bytes) : bytes :=
  [tab] ++ name ++ str ": " ++ text ++ [newline].

Definition block (FuncForPC : Z -> option bytes)
    (ReadFile : bytes -> option bytes) (fr : Frame) : bytes :=
  location fr
    ++ match ReadFile (File fr) with
       | None => []
       | Some data =>
           second_line (display_name FuncForPC (PC fr))
                       (line_text data (Line fr))
       end.

(** The lines kept by a run are those of the loaded file. *)
Definition cache_ok (ReadFile : bytes -> option bytes) (w : walk) : Prop :=
  (lastFile w = [] /\ lines w = [])
  \/ exists data,
       ReadFile (lastFile w) = Some data /\ lines w = Split data newline.

(** ** The numeral of the standard library, digit by digit

    [fmt_d] prints with the decimal numerals of the standard library.
    To compare [itoa] with it, the digits of [udigits] are built a second
    time, as a numeral of type [Decimal.uint]. *)

Definition dcons (k : Z) (u : Decimal.uint) : Decimal.uint :=
  match k with
  | 0 => Decimal.D0 u
  | 1 => Decimal.D1 u
  | 2 => Decimal.D2 u
  | 3 => Decimal.D3 u
  | 4 => Decimal.D4 u
  | 5 => Decimal.D5 u
  | 6 => Decimal.D6 u
  | 7 => Decimal.D7 u
  | 8 => Decimal.D8 u
  | _ => Decimal.D9 u
  end.

Fixpoint udigits_uint (rounds : nat) (n : Z) (acc : Decimal.uint)
  : Decimal.uint :=
  match rounds with
  | O => acc
  | S r =>
      let acc' := dcons (n mod 10) acc in
      if n <? 10 then acc' else udigits_uint r (n / 10) acc'
  end.

(** * Verification *)

(** ** Machine arithmetic *)

(** Linear arithmetic once the bounds of the machine types are spelled
    out. *)
Ltac machine_lia :=
  unfold isInt, isUint, minInt, maxInt, maxUint, ptrSize, maxAlloc in *; lia.

Lemma wrapU_small x : 0 <= x <= maxUint -> wrapU x = x.
Proof. unfold wrapU, maxUint. intros H. apply Z.mod_small. lia. Qed.

Lemma wrapI_small x : minInt <= x <= maxInt -> wrapI x = x.
Proof.
  unfold wrapI, minInt, maxInt. intros H.
  rewrite Z.mod_small by lia. lia.
Qed.

Lemma wrapI_range x : minInt <= wrapI x <= maxInt.
Proof.
  unfold wrapI, minInt, maxInt.
  pose proof (Z.mod_pos_bound (x + 2 ^ 63) (2 ^ 64) eq_refl). lia.
Qed.

(** The magnitude of a negative [int], as [itoa] obtains it: the negation
    wraps at [minInt] and the conversion to [uint] undoes the damage. *)
Lemma magnitude_of_negative v :
  minInt <= v < 0 -> uint_of_int (wrapI (- v)) = - v.
Proof.
  intros H. destruct (Z.eq_dec v minInt) as [->|Hne].
  - reflexivity.
  - unfold minInt in *. rewrite wrapI_small by (unfold minInt, maxInt; lia).
    apply wrapU_small. unfold maxUint. lia.
Qed.

Lemma code_ascii_of_N n : (n < 256)%N -> code (ascii_of_N n) = Z.of_N n.
Proof. intros H. unfold code. now rewrite N_ascii_embedding. Qed.

Lemma code_digitChar d : 0 <= d < 10 -> code (digitChar d) = 48 + d.
Proof.
  intros H. unfold digitChar. rewrite code_ascii_of_N by lia. lia.
Qed.

(** The byte the loop of [uitoa] stores for [val]: the three wrapping
    operations of ['0' + val - q*10] and the truncation to a byte leave
    exactly the character of the last digit. *)
Lemma loop_digit val :
  0 <= val <= maxUint ->
  byte_of_uint (wrapU (wrapU (48 + val) - wrapU (val / 10 * 10)))
  = digitChar (val mod 10).
Proof.
  intros H. unfold byte_of_uint, digitChar, wrapU.
  rewrite <- Zminus_mod.
  replace (48 + val - val / 10 * 10) with (48 + val mod 10)
    by (rewrite Z.mod_eq by lia; lia).
  pose proof (Z.mod_pos_bound val 10 eq_refl).
  rewrite (Z.mod_small (48 + val mod 10) (2 ^ 64)) by lia.
  rewrite Z.mod_small by lia. reflexivity.
Qed.

Lemma last_digit val :
  0 <= val < 10 -> byte_of_uint (wrapU (48 + val)) = digitChar (val mod 10).
Proof.
  intros H. unfold byte_of_uint, digitChar, wrapU.
  rewrite (Z.mod_small val 10) by lia.
  rewrite (Z.mod_small (48 + val) (2 ^ 64)) by lia.
  rewrite Z.mod_small by lia. reflexivity.
Qed.

(** ** [uitoa] and [itoa] compute the decimal numeral *)

Lemma store_ok (b : bytes) i x :
  0 <= i < Z.of_nat (length b) -> store b i x = Ok (<[Z.to_nat i := x]> b).
Proof.
  intros H. unfold store.
  destruct (Z.leb_spec 0 i); [|lia].
  destruct (Z.ltb_spec i (Z.of_nat (length b))); [reflexivity|lia].
Qed.

Lemma slice_from_ok (b : bytes) i :
  0 <= i <= Z.of_nat (length b) -> slice_from b i = Ok (drop (Z.to_nat i) b).
Proof.
  intros H. unfold slice_from.
  destruct (Z.leb_spec 0 i); [|lia].
  destruct (Z.leb_spec i (Z.of_nat (length b))); [reflexivity|lia].
Qed.

Lemma drop_store (b : bytes) i x :
  (i < length b)%nat -> drop i (<[i := x]> b) = x :: drop (S i) b.
Proof.
  intros H. rewrite (drop_S _ x).
  - f_equal. apply drop_insert_lt. lia.
  - now apply list_lookup_insert_eq.
Qed.

(** The loop of [uitoa], started at index [i] on a value of at most
    [i + 1] digits, ends without a panic; the digit it leaves in [val]
    and the digits it stored above index [i'] make up the numeral of the
    value in front of what the buffer held above index [i]. *)
Lemma uitoa_loop_digits fuel :
  forall rounds (b : bytes) i val,
    0 <= i < Z.of_nat (length b) ->
    i <= Z.of_nat fuel -> i < Z.of_nat rounds ->
    1 <= val < 10 ^ (i + 1) -> val <= maxUint ->
    exists b' i' val',
      uitoa_loop fuel b i val = Ok (b', i', val')
      /\ 0 <= i' <= i /\ length b' = length b /\ 0 <= val' < 10
      /\ digitChar (val' mod 10) :: drop (Z.to_nat (i' + 1)) b'
         = udigits rounds val (drop (Z.to_nat (i + 1)) b).
Proof.
  induction fuel as [|fuel IH]; intros rounds b i val Hi Hfuel Hrounds Hval Hmax.
  - assert (i = 0) as -> by lia. simpl in Hval.
    exists b, 0, val. cbn [uitoa_loop].
    destruct (Z.leb_spec 10 val); [lia|].
    repeat split; try lia.
    destruct rounds as [|rounds]; [lia|]. cbn [udigits].
    destruct (Z.ltb_spec val 10); [reflexivity|lia].
  - destruct rounds as [|rounds]; [lia|]. cbn [uitoa_loop udigits].
    destruct (Z.leb_spec 10 val) as [Hge|Hlt].
    + destruct (Z.ltb_spec val 10); [lia|].
      assert (1 <= i) as Hi1.
      { destruct (Z.eq_dec i 0) as [->|]; [simpl in Hval; lia|lia]. }
      rewrite store_ok by lia. cbn.
      rewrite loop_digit by lia.
      set (d := digitChar (val mod 10)).
      destruct (IH rounds (<[Z.to_nat i := d]> b) (i - 1) (val / 10))
        as (b' & i' & val' & Hrun & Hi' & Hlen & Hval' & Hdig).
      * rewrite length_insert. lia.
      * lia.
      * lia.
      * split.
        -- apply Z.div_le_lower_bound; lia.
        -- apply Z.div_lt_upper_bound; [lia|].
           replace (i - 1 + 1) with i by lia.
           replace (i + 1) with (Z.succ i) in Hval by lia.
           rewrite Z.pow_succ_r in Hval by lia. lia.
      * assert (val / 10 <= val) by (apply Z.div_le_upper_bound; lia). lia.
      * exists b', i', val'. rewrite Hrun, Hdig, Hlen, length_insert.
        repeat split; try lia.
        replace (i - 1 + 1) with i by lia.
        rewrite drop_store by lia.
        replace (Z.to_nat (i + 1)) with (S (Z.to_nat i)) by lia.
        reflexivity.
    + exists b, i, val.
      destruct (Z.ltb_spec val 10); [|lia].
      repeat split; try lia.
Qed.

Lemma uitoa_udecimal val : 0 <= val <= maxUint -> uitoa val = Ok (udecimal val).
Proof.
  intros H. unfold uitoa. destruct (Z.eqb_spec val 0) as [->|Hne].
  - reflexivity.
  - destruct (uitoa_loop_digits (length buf20) 20 buf20 19 val)
      as (b' & i' & val' & Hrun & Hi' & Hlen & Hval' & Hdig);
      try (cbn; lia).
    { unfold maxUint in H. cbn. lia. }
    change (Z.of_nat (length buf20) - 1) with 19.
    rewrite Hrun. cbn.
    rewrite store_ok by (rewrite Hlen; cbn; lia). cbn.
    rewrite slice_from_ok by (rewrite length_insert, Hlen; cbn; lia).
    rewrite drop_store by (rewrite Hlen; cbn; lia).
    rewrite last_digit by lia.
    replace (S (Z.to_nat i')) with (Z.to_nat (i' + 1)) by lia.
    rewrite Hdig. reflexivity.
Qed.

Lemma itoa_decimal val : minInt <= val <= maxInt -> itoa val = Ok (decimal val).
Proof.
  intros H. unfold itoa, decimal. destruct (Z.ltb_spec val 0) as [Hneg|Hpos].
  - rewrite magnitude_of_negative by lia.
    rewrite uitoa_udecimal by machine_lia.
    reflexivity.
  - unfold uint_of_int. rewrite wrapU_small by machine_lia.
    apply uitoa_udecimal. unfold maxInt, maxUint in *. lia.
Qed.

(** ** Reading the numeral back *)

Lemma isDigit_digitChar d : 0 <= d < 10 -> isDigit (digitChar d) = true.
Proof.
  intros H. unfold isDigit. rewrite code_digitChar by assumption.
  apply andb_true_intro. split; apply Z.leb_le; lia.
Qed.

Lemma udigits_app rounds : forall n acc,
  udigits rounds n acc = udigits rounds n [] ++ acc.
Proof.
  induction rounds as [|r IH]; intros n acc; cbn [udigits].
  - reflexivity.
  - destruct (n <? 10); [reflexivity|].
    rewrite (IH _ (_ :: acc)), (IH _ [_]), <- app_assoc. reflexivity.
Qed.

Lemma udigits_isDigit rounds : forall n acc,
  forallb isDigit acc = true -> forallb isDigit (udigits rounds n acc) = true.
Proof.
  induction rounds as [|r IH]; intros n acc Hacc; cbn [udigits].
  - assumption.
  - assert (forallb isDigit (digitChar (n mod 10) :: acc) = true) as Hd.
    { cbn [forallb]. rewrite Hacc, isDigit_digitChar; [reflexivity|].
      apply Z.mod_pos_bound. lia. }
    destruct (n <? 10); [assumption|]. now apply IH.
Qed.

Lemma udigits_value rounds : forall n acc,
  0 <= n < 10 ^ Z.of_nat rounds ->
  fold_left step10 (udigits rounds n acc) 0 = fold_left step10 acc n.
Proof.
  induction rounds as [|r IH]; intros n acc Hn; cbn [udigits].
  - change (10 ^ Z.of_nat 0) with 1 in Hn. now replace n with 0 by lia.
  - rewrite Nat2Z.inj_succ, Z.pow_succ_r in Hn by lia.
    pose proof (Z.mod_pos_bound n 10 eq_refl) as Hmod.
    assert (forall a, step10 a (digitChar (n mod 10)) = a * 10 + n mod 10) as Hstep.
    { intros a. unfold step10. rewrite code_digitChar by lia. lia. }
    destruct (Z.ltb_spec n 10) as [Hlt|Hge].
    + cbn [fold_left]. rewrite Hstep, Z.mod_small by lia. reflexivity.
    + rewrite IH.
      * cbn [fold_left]. rewrite Hstep. f_equal.
        rewrite (Z.div_mod n 10) at 3 by lia. lia.
      * split; [apply Z.div_pos; lia|apply Z.div_lt_upper_bound; lia].
Qed.

Lemma udigits_nonempty r n acc : udigits (S r) n acc <> [].
Proof.
  cbn [udigits]. destruct (n <? 10); [discriminate|].
  rewrite udigits_app. intros H. now apply app_eq_nil in H as [_ ?].
Qed.

Lemma udecimal_cons n : exists c t,
  udecimal n = c :: t /\ isDigit c = true /\ forallb isDigit t = true.
Proof.
  pose proof (udigits_isDigit 20 n [] eq_refl) as Hall.
  unfold udecimal in *. destruct (udigits 20 n []) as [|c t] eqn:E.
  - exfalso. exact (udigits_nonempty 19 n [] E).
  - exists c, t. cbn [forallb] in Hall. apply andb_prop in Hall as [? ?]. auto.
Qed.

Lemma parseUint_udecimal n : 0 <= n <= maxUint -> parseUint (udecimal n) = Some n.
Proof.
  intros Hn. destruct (udecimal_cons n) as (c & t & E & Hc & Ht).
  unfold parseUint. rewrite E. cbn [forallb]. rewrite Hc, Ht. cbn [andb].
  f_equal. rewrite <- E. unfold digitsValue, udecimal.
  rewrite udigits_value; [reflexivity|]. unfold maxUint in Hn.
  change (10 ^ Z.of_nat 20) with 100000000000000000000. lia.
Qed.

Lemma parseInt_decimal n : minInt <= n <= maxInt -> parseInt (decimal n) = Some n.
Proof.
  intros Hn. unfold decimal. destruct (Z.ltb_spec n 0) as [Hneg|Hpos].
  - change (parseInt (str "-" ++ udecimal (- n)))
      with (Z.opp <$> parseUint (udecimal (- n))).
    rewrite parseUint_udecimal by machine_lia.
    cbn. f_equal. lia.
  - pose proof (parseUint_udecimal n) as Hu.
    destruct (udecimal_cons n) as (c & t & E & Hc & Ht).
    rewrite E in *. unfold parseInt.
    destruct (Ascii.eqb_spec c "-") as [->|_]; [discriminate Hc|].
    apply Hu. unfold maxInt, maxUint in *. lia.
Qed.

(** ** The encoder's contract *)

(** C2.  For every non-negative machine integer [n] the decimal text of
    [n] reads back as [n]: [uitoa] on the whole range of [uint], [itoa]
    on the non-negative half of [int] (where it gives the same text);
    and the text of zero is exactly "0". *)
Theorem toDecimal_roundtrip (n : Z) (Hn : 0 <= n <= maxUint) :
  exists s,
    uitoa n = Ok s /\ parseUint s = Some n
    /\ (n <= maxInt -> itoa n = Ok s /\ parseInt s = Some n)
    /\ uitoa 0 = Ok (str "0") /\ itoa 0 = Ok (str "0").
Proof.
  exists (udecimal n). split; [now apply uitoa_udecimal|].
  split; [now apply parseUint_udecimal|].
  split; [|split; reflexivity].
  intros Hint.
  assert (decimal n = udecimal n) as Hdec.
  { unfold decimal. destruct (Z.ltb_spec n 0); [lia|reflexivity]. }
  rewrite <- Hdec. split.
  - apply itoa_decimal. unfold minInt. lia.
  - apply parseInt_decimal. unfold minInt. lia.
Qed.

Lemma toDecimal_roundtrip_witness :
  0 <= 1234567890 <= maxUint
  /\ exists s,
       uitoa 1234567890 = Ok s /\ parseUint s = Some 1234567890
       /\ (1234567890 <= maxInt
           -> itoa 1234567890 = Ok s /\ parseInt s = Some 1234567890)
       /\ uitoa 0 = Ok (str "0") /\ itoa 0 = Ok (str "0").
Proof.
  assert (0 <= 1234567890 <= maxUint) as H by machine_lia.
  split; [exact H | exact (toDecimal_roundtrip 1234567890 H)].
Defined.

(** C3.  For every negative machine integer [n], [itoa n] is a minus sign
    followed by the unsigned encoding of the magnitude [-n] (which reads
    back as [-n]); away from [minInt], where [-n] is an [int] again, that
    is also the text [itoa] gives for [-n]. *)
Theorem itoa_negative (n : Z) (Hn : minInt <= n < 0) :
  exists s,
    itoa n = Ok ("-"%char :: s)
    /\ uitoa (- n) = Ok s /\ parseUint s = Some (- n)
    /\ (minInt < n -> itoa (- n) = Ok s).
Proof.
  assert (0 <= - n <= maxUint) as Hmag by machine_lia.
  exists (udecimal (- n)). split.
  - rewrite itoa_decimal by machine_lia. unfold decimal.
    destruct (Z.ltb_spec n 0); [reflexivity|lia].
  - split; [now apply uitoa_udecimal|].
    split; [now apply parseUint_udecimal|].
    intros Hmin. rewrite itoa_decimal by machine_lia.
    unfold decimal. destruct (Z.ltb_spec (- n) 0); [lia|reflexivity].
Qed.

Lemma itoa_negative_witness :
  minInt <= -507 < 0
  /\ exists s,
       itoa (-507) = Ok ("-"%char :: s)
       /\ uitoa (- -507) = Ok s /\ parseUint s = Some (- -507)
       /\ (minInt < -507 -> itoa (- -507) = Ok s).
Proof.
  assert (minInt <= -507 < 0) as H by machine_lia.
  split; [exact H | exact (itoa_negative (-507) H)].
Defined.

(** C10.  At the least 64-bit integer the negation in [itoa] overflows
    and wraps back to the same value, the conversion to [uint] turns that
    into the magnitude 2^63, and the text is the correct
    "-9223372036854775808", which reads back as the input. *)
Theorem itoa_minInt :
  wrapI (- minInt) = minInt
  /\ uint_of_int (wrapI (- minInt)) = 2 ^ 63
  /\ itoa minInt = Ok (str "-9223372036854775808")
  /\ parseInt (str "-9223372036854775808") = Some minInt.
Proof. repeat split; vm_compute; reflexivity. Qed.

(** ** [source]: the line or the sentinel *)

Lemma inCutset_spaceTab c : inCutset spaceTab c = true <-> blank c.
Proof.
  unfold inCutset, spaceTab, blank. cbn [existsb].
  rewrite !orb_true_iff, !Ascii.eqb_eq. intuition discriminate.
Qed.

Lemma TrimLeft_spec s cutset :
  exists pre,
    s = pre ++ TrimLeft s cutset
    /\ Forall (fun c => inCutset cutset c = true) pre
    /\ forall c, head (TrimLeft s cutset) = Some c -> inCutset cutset c = false.
Proof.
  induction s as [|c s (pre & Hs & Hpre & Hhd)]; cbn [TrimLeft].
  - exists []. repeat split; [constructor|discriminate].
  - destruct (inCutset cutset c) eqn:Hc.
    + exists (c :: pre). cbn. rewrite <- Hs. repeat split; auto.
    + exists []. repeat split; [constructor|].
      intros c' [= <-]. assumption.
Qed.

Lemma TrimRight_spec s cutset :
  exists post,
    s = TrimRight s cutset ++ post
    /\ Forall (fun c => inCutset cutset c = true) post
    /\ forall c, last (TrimRight s cutset) = Some c -> inCutset cutset c = false.
Proof.
  unfold TrimRight.
  destruct (TrimLeft_spec (reverse s) cutset) as (pre & Hs & Hpre & Hhd).
  exists (reverse pre). repeat split.
  - rewrite <- reverse_app, <- Hs. symmetry. apply reverse_involutive.
  - now apply Forall_reverse.
  - intros c. rewrite last_reverse. apply Hhd.
Qed.

(** [Trim] cuts a run of cutset characters off either end and leaves a
    text that neither starts nor ends with one. *)
Lemma Trim_spec s cutset :
  exists pre post,
    s = pre ++ Trim s cutset ++ post
    /\ Forall (fun c => inCutset cutset c = true) pre
    /\ Forall (fun c => inCutset cutset c = true) post
    /\ (forall c, head (Trim s cutset) = Some c -> inCutset cutset c = false)
    /\ (forall c, last (Trim s cutset) = Some c -> inCutset cutset c = false).
Proof.
  unfold Trim.
  destruct (TrimRight_spec s cutset) as (post & Hs & Hpost & Hlast).
  destruct (TrimLeft_spec (TrimRight s cutset) cutset) as (pre & Hr & Hpre & Hhd).
  exists pre, post. repeat split; auto.
  - rewrite app_assoc, <- Hr. exact Hs.
  - intros c Hc. apply Hlast. rewrite Hr.
    rewrite last_app, Hc. reflexivity.
Qed.

Lemma index_ok {A} (l : list A) i x :
  0 <= i -> l !! Z.to_nat i = Some x -> index l i = Ok x.
Proof.
  intros Hi Hx. unfold index. apply lookup_lt_Some in Hx as Hlt.
  destruct (Z.leb_spec 0 i); [|lia].
  destruct (Z.ltb_spec i (Z.of_nat (length l))); [|lia].
  rewrite Hx. reflexivity.
Qed.

(** [source] never panics. *)
Lemma source_total (lines : list bytes) n : exists text, source lines n = Ok text.
Proof.
  unfold source.
  destruct (Z.ltb_spec n 0) as [Hneg|Hpos]; cbn [orb]; [eauto|].
  destruct (Z.leb_spec (Z.of_nat (length lines)) n) as [Hge|Hlt]; [eauto|].
  destruct (lookup_lt_is_Some_2 lines (Z.to_nat n)) as [line Hline]; [lia|].
  rewrite (index_ok _ _ _ Hpos Hline). cbn. eauto.
Qed.

(** C4.  [source lines n] is the sentinel "???" when [n] is negative or
    at least the number of lines; otherwise it is line [n] with a run of
    spaces and tabs removed from each end, so that what is left neither
    starts nor ends with a space or a tab.  It never panics. *)
Theorem source_line_or_sentinel (lines : list bytes) (n : Z) :
  ((n < 0 \/ Z.of_nat (length lines) <= n) /\ source lines n = Ok (str "???"))
  \/ (exists line pre text post,
        0 <= n < Z.of_nat (length lines)
        /\ lines !! Z.to_nat n = Some line
        /\ source lines n = Ok text
        /\ line = pre ++ text ++ post
        /\ Forall blank pre /\ Forall blank post
        /\ (forall c, head text = Some c -> ~ blank c)
        /\ (forall c, last text = Some c -> ~ blank c)).
Proof.
  unfold source.
  destruct (Z.ltb_spec n 0) as [Hneg|Hpos]; cbn [orb].
  { left. split; [lia|reflexivity]. }
  destruct (Z.leb_spec (Z.of_nat (length lines)) n) as [Hge|Hlt].
  { left. split; [lia|reflexivity]. }
  right.
  destruct (lookup_lt_is_Some_2 lines (Z.to_nat n)) as [line Hline]; [lia|].
  destruct (Trim_spec line spaceTab) as (pre & post & Hs & Hpre & Hpost & Hhd & Hla).
  exists line, pre, (Trim line spaceTab), post.
  rewrite (index_ok _ _ _ Hpos Hline).
  repeat split; try lia; auto.
  - eapply Forall_impl; [exact Hpre|]. intros c. apply inCutset_spaceTab.
  - eapply Forall_impl; [exact Hpost|]. intros c. apply inCutset_spaceTab.
  - intros c Hc Hb. apply inCutset_spaceTab in Hb.
    rewrite (Hhd c Hc) in Hb. discriminate.
  - intros c Hc Hb. apply inCutset_spaceTab in Hb.
    rewrite (Hla c Hc) in Hb. discriminate.
Qed.

(** ** [function]: the cleaned-up symbol name *)

Lemma HasPrefix_spec p : forall s,
  HasPrefix s p = true <-> exists t, s = p ++ t.
Proof.
  induction p as [|x p IH]; intros s.
  - destruct s; cbn; split; eauto.
  - destruct s as [|c s]; cbn [HasPrefix].
    + split; [discriminate|]. intros [t Ht]. discriminate.
    + rewrite andb_true_iff, Ascii.eqb_eq, IH. split.
      * intros [-> [t ->]]. now exists t.
      * intros [t [= -> ->]]. eauto.
Qed.

(** [Index] on the one-byte separator: the position of the first dot. *)
Lemma Index_dot s :
  (exists pre tail,
      s = pre ++ dot ++ tail /\ ("."%char ∉ pre)
      /\ Index s dot = Z.of_nat (length pre))
  \/ (("."%char ∉ s) /\ Index s dot = -1).
Proof.
  induction s as [|c s IH].
  - right. split; [apply not_elem_of_nil|reflexivity].
  - cbn [Index]. destruct (HasPrefix (c :: s) dot) eqn:Hp.
    + left. apply HasPrefix_spec in Hp as [t Ht]. exists [], t.
      repeat split; [exact Ht|apply not_elem_of_nil].
    + assert (c <> "."%char) as Hc.
      { intros ->. enough (HasPrefix ("."%char :: s) dot = true) by congruence.
        apply HasPrefix_spec. now exists s. }
      destruct IH as [(pre & tail & -> & Hpre & ->)|[Hs ->]].
      * left. exists (c :: pre), tail. repeat split.
        -- now apply not_elem_of_cons.
        -- destruct (Z.ltb_spec (Z.of_nat (length pre)) 0); cbn [length]; lia.
      * right. split; [now apply not_elem_of_cons|reflexivity].
Qed.

Lemma occurs_nil p : p <> [] -> ~ occurs p [].
Proof.
  intros Hp (pre & post & H). symmetry in H.
  apply app_eq_nil in H as [_ H]. apply app_eq_nil in H as [H _]. auto.
Qed.

Lemma occurs_cons_inv p c s :
  occurs p (c :: s) -> (exists post, c :: s = p ++ post) \/ occurs p s.
Proof.
  intros ([|x pre] & post & H).
  - left. now exists post.
  - right. injection H as _ ->. now exists pre, post.
Qed.

Lemma occurs_cons p c s : occurs p s -> occurs p (c :: s).
Proof. intros (pre & post & ->). now exists (c :: pre), post. Qed.

Lemma centerDot_bytes_differ : ascii_of_nat 194 <> ascii_of_nat 183.
Proof. discriminate. Qed.

Lemma dot_not_centerDot : "."%char <> ascii_of_nat 194.
Proof. discriminate. Qed.

(** A matched center dot becomes a dot. *)
Lemma Replace_centerDot_here t :
  Replace_from 0 (centerDot ++ t) centerDot dot
  = dot ++ Replace_from 0 t centerDot dot.
Proof. reflexivity. Qed.

(** A stretch without center dot, followed by the end of the text or by
    a center dot, is copied as it is. *)
Lemma Replace_centerDot_piece p : forall rest,
  ~ occurs centerDot p ->
  (rest = [] \/ exists t, rest = centerDot ++ t) ->
  Replace_from 0 (p ++ rest) centerDot dot
  = p ++ Replace_from 0 rest centerDot dot.
Proof.
  induction p as [|c p IH]; intros rest Hp Hrest; [reflexivity|].
  cbn [app Replace_from].
  destruct (HasPrefix (c :: p ++ rest) centerDot) eqn:Hpre.
  - exfalso. apply HasPrefix_spec in Hpre as [t Ht].
    injection Ht as -> Ht. destruct p as [|c2 p].
    + destruct Hrest as [->|[t' ->]]; [discriminate|].
      injection Ht as Ht _. now apply centerDot_bytes_differ.
    + injection Ht as -> _. apply Hp. now exists [], p.
  - f_equal. apply IH; [|assumption].
    intros Hocc. apply Hp. now apply occurs_cons.
Qed.

Lemma join_cons_cons sep (p q : bytes) pieces :
  join sep (p :: q :: pieces) = p ++ sep ++ join sep (q :: pieces).
Proof. reflexivity. Qed.

(** Replacing the center dots of pieces joined by center dots joins the
    pieces by dots. *)
Lemma Replace_join pieces :
  Forall (fun p => ~ occurs centerDot p) pieces ->
  Replace (join centerDot pieces) centerDot dot = join dot pieces.
Proof.
  unfold Replace. induction 1 as [|p pieces Hp Hall IH]; [reflexivity|].
  destruct pieces as [|q pieces].
  - cbn [join]. rewrite <- (app_nil_r p) at 1.
    rewrite Replace_centerDot_piece by auto. cbn. apply app_nil_r.
  - rewrite !join_cons_cons.
    rewrite Replace_centerDot_piece by eauto.
    rewrite Replace_centerDot_here, IH. reflexivity.
Qed.

Lemma Replace_head s :
  head (Replace_from 0 s centerDot dot) = Some (ascii_of_nat 183) ->
  head s = Some (ascii_of_nat 183).
Proof.
  destruct s as [|c s]; cbn [Replace_from]; [auto|].
  destruct (HasPrefix (c :: s) centerDot); [discriminate|auto].
Qed.

(** The result of the replacement holds no center dot. *)
Lemma Replace_no_centerDot s : forall skip,
  ~ occurs centerDot (Replace_from skip s centerDot dot).
Proof.
  induction s as [|c s IH]; intros skip; cbn [Replace_from].
  - now apply occurs_nil.
  - destruct skip as [|k]; [|apply IH].
    destruct (HasPrefix (c :: s) centerDot) eqn:Hpre.
    + intros Hocc. apply occurs_cons_inv in Hocc as [[post Hpost]|Hocc].
      * discriminate Hpost.
      * now apply IH in Hocc.
    + intros Hocc. apply occurs_cons_inv in Hocc as [[post Hpost]|Hocc].
      * injection Hpost as -> Hpost.
        assert (head s = Some (ascii_of_nat 183)) as Hs
          by (apply Replace_head; now rewrite Hpost).
        apply head_Some in Hs as [t ->]. discriminate Hpre.
      * now apply IH in Hocc.
Qed.

(** [function] on a resolved name: the text behind the first dot, or
    the whole name when it holds none, goes through the replacement. *)
Lemma function_tail (FuncForPC : Z -> option bytes) pc s :
  FuncForPC pc = Some s ->
  exists tail,
    ((exists pre, s = pre ++ dot ++ tail /\ ("."%char ∉ pre))
     \/ (("."%char ∉ s) /\ tail = s))
    /\ function FuncForPC pc = Ok (Replace tail centerDot dot).
Proof.
  intros Hlookup. unfold function. rewrite Hlookup.
  destruct (Index_dot s) as [(pre & tail & Hs & Hpre & Hidx)|[Hs Hidx]];
    rewrite Hidx.
  - exists tail. split; [left; eauto|].
    destruct (Z.leb_spec 0 (Z.of_nat (length pre))); [|lia].
    rewrite slice_from_ok by (rewrite Hs, !length_app; cbn; lia).
    cbn. do 2 f_equal. rewrite Hs.
    replace (Z.to_nat (Z.of_nat (length pre) + 1))
      with (length (pre ++ dot)) by (rewrite length_app; cbn; lia).
    rewrite app_assoc. apply drop_app_length.
  - exists s. split; [right; auto|]. reflexivity.
Qed.

(** [function] never panics. *)
Lemma function_total (FuncForPC : Z -> option bytes) pc :
  exists name, function FuncForPC pc = Ok name.
Proof.
  destruct (FuncForPC pc) as [s|] eqn:E.
  - destruct (function_tail FuncForPC pc s E) as (tail & _ & H). eauto.
  - unfold function. rewrite E. eauto.
Qed.

(** C5.  When the symbol lookup succeeds with the raw name [s],
    [function] returns, without panic, the text [tail] that follows the
    first dot of [s] (all of [s] if it has no dot) with every center dot
    replaced by a dot: whenever [tail] is made of pieces joined by center
    dots, the result is the same pieces joined by dots.  The result holds
    no center dot, and nothing of [s] up to its first dot takes part in
    it. *)
Theorem function_resolved (FuncForPC : Z -> option bytes) (pc : Z) (s : bytes)
    (Hlookup : FuncForPC pc = Some s) :
  exists tail name,
    ((exists pre, s = pre ++ dot ++ tail /\ ("."%char ∉ pre))
     \/ (("."%char ∉ s) /\ tail = s))
    /\ function FuncForPC pc = Ok name
    /\ name = Replace tail centerDot dot
    /\ (forall pieces,
          tail = join centerDot pieces ->
          Forall (fun p => ~ occurs centerDot p) pieces ->
          name = join dot pieces)
    /\ ~ occurs centerDot name.
Proof.
  destruct (function_tail FuncForPC pc s Hlookup) as (tail & Htail & Hrun).
  exists tail, (Replace tail centerDot dot).
  repeat split; auto.
  - intros pieces -> Hall. now apply Replace_join.
  - apply Replace_no_centerDot.
Qed.

Lemma function_resolved_witness :
  let raw := str "example/pkg.Type" ++ centerDot ++ str "Method" in
  (fun _ : Z => Some raw) 4096 = Some raw
  /\ exists tail name,
       ((exists pre, raw = pre ++ dot ++ tail /\ ("."%char ∉ pre))
        \/ (("."%char ∉ raw) /\ tail = raw))
       /\ function (fun _ => Some raw) 4096 = Ok name
       /\ name = Replace tail centerDot dot
       /\ (forall pieces,
             tail = join centerDot pieces ->
             Forall (fun p => ~ occurs centerDot p) pieces ->
             name = join dot pieces)
       /\ ~ occurs centerDot name.
Proof.
  intros raw. split; [reflexivity|].
  exact (function_resolved (fun _ => Some raw) 4096 raw eq_refl).
Defined.

(** The example of the documentation: [example/pkg.Type·Method] is
    rendered as [Type.Method]. *)
Example function_example :
  function (fun _ => Some (str "example/pkg.Type" ++ centerDot ++ str "Method"))
           4096
  = Ok (str "Type.Method").
Proof. reflexivity. Qed.

(** ** [Callers]: the compact list *)

Lemma join_absorb sep (x p : bytes) ps :
  join sep ((x ++ sep ++ p) :: ps) = join sep (x :: p :: ps).
Proof.
  destruct ps as [|q ps]; [reflexivity|].
  rewrite !join_cons_cons, <- !app_assoc. reflexivity.
Qed.

Lemma emit_Some x l :
  emit (Some x) l = Some (join (str " ") (x :: map pair_text l)).
Proof.
  revert x. induction l as [|fr l IH]; intros x; [reflexivity|].
  cbn [emit map]. rewrite IH, <- app_assoc. now rewrite join_absorb.
Qed.

Lemma emit_render l : emit None l = render l.
Proof. destruct l as [|fr l]; [reflexivity|]. cbn [emit]. apply emit_Some. Qed.

(** One pair appended by the loop body. *)
Lemma append_pair b fr :
  append (append (append (if started b then append b (str " ") else b)
                         (File fr)) (str ":")) (decimal (Line fr))
  = Some (match b with None => [] | Some x => x ++ str " " end ++ pair_text fr).
Proof.
  unfold pair_text. destruct b as [x|]; cbn [started append].
  - now rewrite <- !app_assoc.
  - destruct (File fr) as [|c f]; cbn [append app];
      now rewrite <- ?app_assoc.
Qed.

Section CallersLoop.

Variable n : Z.

(** Past the skipped frames every iteration appends a pair, until the
    trips or the frames run out. *)
Lemma Callers_loop_emit trips : forall frames i b,
  frames <> [] -> n <= i ->
  Forall (fun fr => isInt (Line fr)) frames ->
  Callers_loop trips i n frames b (started b)
  = Ok (emit b (take trips frames)).
Proof.
  induction trips as [|trips IH]; intros frames i b Hne Hi Hlines.
  - reflexivity.
  - destruct frames as [|fr rest]; [contradiction|].
    apply Forall_cons in Hlines as [Hfr Hrest].
    cbn [Callers_loop Next take emit].
    destruct (Z.leb_spec n i); [|lia].
    rewrite (itoa_decimal _ Hfr). cbn. rewrite append_pair.
    destruct rest as [|fr' rest]; [now rewrite take_nil|].
    apply (IH (fr' :: rest) (i + 1) (Some _)); [discriminate|lia|assumption].
Qed.

(** Before that, iterations only advance the iterator. *)
Lemma Callers_loop_skip trips : forall frames i,
  frames <> [] ->
  Forall (fun fr => isInt (Line fr)) frames ->
  Callers_loop trips i n frames None false
  = Ok (emit None (take (trips - Z.to_nat (n - i))
                        (drop (Z.to_nat (n - i)) frames))).
Proof.
  induction trips as [|trips IH]; intros frames i Hne Hlines.
  - reflexivity.
  - destruct (Z.le_gt_cases n i) as [Hle|Hgt].
    + replace (Z.to_nat (n - i)) with 0%nat by lia.
      rewrite Nat.sub_0_r, drop_0.
      now apply (Callers_loop_emit (S trips) frames i None).
    + destruct frames as [|fr rest]; [contradiction|].
      apply Forall_cons in Hlines as [Hfr Hrest].
      replace (Z.to_nat (n - i)) with (S (Z.to_nat (n - (i + 1)))) by lia.
      cbn [Callers_loop Next drop Nat.sub].
      destruct (Z.leb_spec n i); [lia|]. cbn.
      destruct rest as [|fr' rest].
      * now rewrite drop_nil, take_nil.
      * apply IH; [discriminate|assumption].
Qed.

End CallersLoop.

(** The batch: [max*2] program counters are asked for, whatever [n]. *)
Lemma Callers_batch_ok chain max :
  0 <= max -> max * 2 * ptrSize <= maxAlloc ->
  exists pcs,
    Callers_batch chain max = Ok pcs
    /\ length pcs = Nat.min (Z.to_nat (max * 2)) (length chain).
Proof.
  intros Hmax Halloc. unfold ptrSize, maxAlloc in Halloc.
  unfold Callers_batch, make_uintptr.
  rewrite wrapI_small by machine_lia.
  destruct (Z.leb_spec 0 (max * 2)); [|lia].
  destruct (Z.leb_spec (max * 2 * ptrSize) maxAlloc);
    [|unfold ptrSize, maxAlloc in *; lia].
  cbn. rewrite Nat2Z.id. eexists. split; [reflexivity|].
  rewrite length_take, length_app, length_map, length_take, length_drop,
    !length_replicate. lia.
Qed.

Lemma wrapI_overflow x : maxInt < x <= maxInt + maxInt -> wrapI x < 0.
Proof.
  unfold wrapI, maxInt. intros H.
  replace (x + 2 ^ 63) with (x - 2 ^ 63 + 1 * 2 ^ 64) by lia.
  rewrite Z_mod_plus_full, Z.mod_small by lia. lia.
Qed.

(** What [Callers] returns, for every call that gets its buffer. *)
Lemma Callers_render chain n max :
  0 <= n <= maxInt -> 0 <= max -> max * 2 * ptrSize <= maxAlloc ->
  Forall (fun fr => isInt (Line fr)) chain ->
  Callers chain n max
  = Ok (render (take (Z.to_nat max)
                  (drop (Z.to_nat n) (take (Z.to_nat (max * 2)) chain)))).
Proof.
  intros Hn Hmax Halloc Hlines.
  destruct (Callers_batch_ok chain max Hmax Halloc) as (pcs & Hbatch & Hlen).
  unfold Callers. rewrite Hbatch. cbn.
  unfold runtime_CallersFrames. rewrite Hlen.
  assert (take (Z.to_nat (max * 2) `min` length chain) chain
          = take (Z.to_nat (max * 2)) chain) as ->.
  { destruct (Nat.min_spec (Z.to_nat (max * 2)) (length chain)) as [[_ ->]|[Hge ->]];
      [reflexivity|]. now rewrite !take_ge by lia. }
  set (frames := take (Z.to_nat (max * 2)) chain).
  assert (length frames = Nat.min (Z.to_nat (max * 2)) (length chain)) as Hframes
    by apply length_take.
  destruct (Z.eqb_spec (Z.of_nat (Z.to_nat (max * 2) `min` length chain)) 0)
    as [Hzero|Hnz].
  { replace frames with (@nil Frame); [now rewrite drop_nil, take_nil|].
    symmetry. apply length_zero_iff_nil. lia. }
  assert (frames <> []) as Hne.
  { intros E. rewrite E in Hframes. cbn in Hframes. lia. }
  assert (Forall (fun fr => isInt (Line fr)) frames) as Hfl
    by (now apply Forall_take).
  unfold ptrSize, maxAlloc in Halloc.
  destruct (Z.le_gt_cases (n + max) maxInt) as [Hfit|Hover].
  - rewrite wrapI_small by machine_lia.
    rewrite Callers_loop_skip by assumption.
    rewrite emit_render, Z.sub_0_r. do 3 f_equal. lia.
  - replace (Z.to_nat (wrapI (n + max))) with 0%nat
      by (pose proof (wrapI_overflow (n + max)); unfold maxInt in *; lia).
    cbn [Callers_loop]. rewrite drop_ge, take_nil; [reflexivity|].
    unfold maxInt in *. lia.
Qed.

Lemma notin_join (c : ascii) sep pieces :
  c ∉ sep -> Forall (fun p : bytes => c ∉ p) pieces -> c ∉ join sep pieces.
Proof.
  intros Hsep. induction 1 as [|p pieces Hp Hall IH]; [apply not_elem_of_nil|].
  destruct pieces as [|q pieces]; [exact Hp|].
  rewrite join_cons_cons, !not_elem_of_app. auto.
Qed.

Lemma isDigit_elem (s : bytes) c :
  forallb isDigit s = true -> c ∈ s -> isDigit c = true.
Proof.
  induction s as [|x s IH]; cbn [forallb]; intros Hall Hc.
  - now apply elem_of_nil in Hc.
  - apply andb_prop in Hall as [Hx Hs].
    apply elem_of_cons in Hc as [->|Hc]; auto.
Qed.

(** A decimal numeral holds digits and at most a minus sign, so no
    newline. *)
Lemma newline_notin_decimal n : newline ∉ decimal n.
Proof.
  assert ((newline ∉ udecimal (- n)) /\ (newline ∉ udecimal n)) as [Hneg Hpos].
  { split; intros Hin;
      apply (isDigit_elem _ _ (udigits_isDigit 20 _ [] eq_refl)) in Hin;
      discriminate Hin. }
  unfold decimal. destruct (n <? 0); [|exact Hpos].
  apply not_elem_of_app. split; [|exact Hneg].
  intros Hin. apply list_elem_of_singleton in Hin. discriminate Hin.
Qed.

Lemma newline_notin_pair fr :
  newline ∉ File fr -> (newline ∉ pair_text fr).
Proof.
  intros Hfile. unfold pair_text. rewrite !not_elem_of_app.
  repeat split; [exact Hfile| |apply newline_notin_decimal].
  intros Hin. apply list_elem_of_singleton in Hin. discriminate Hin.
Qed.

Lemma join_last sep ps (p : bytes) :
  exists pre, join sep (ps ++ [p]) = pre ++ p.
Proof.
  induction ps as [|x ps [pre IH]]; [now exists []|].
  destruct (ps ++ [p]) as [|q l] eqn:E.
  - now apply app_eq_nil in E as [_ ?].
  - cbn [app]. rewrite E, join_cons_cons, IH.
    exists (x ++ sep ++ pre). now rewrite <- !app_assoc.
Qed.

Lemma render_Some window out :
  render window = Some out -> out = join (str " ") (map pair_text window).
Proof. destruct window; [discriminate|]. now intros [= <-]. Qed.

(** Where the batch of [max*2] program counters reaches as far as the
    call asks, the window of the batch is the window of the chain. *)
Lemma window_in_batch (chain : list Frame) n max :
  0 <= n -> 0 <= max ->
  n <= max \/ Z.of_nat (length chain) <= max * 2 ->
  take (Z.to_nat max) (drop (Z.to_nat n) (take (Z.to_nat (max * 2)) chain))
  = take (Z.to_nat max) (drop (Z.to_nat n) chain).
Proof.
  intros Hn Hmax [Hskip|Hshort].
  - rewrite !take_drop_commute, take_take. do 2 f_equal. lia.
  - now rewrite (take_ge chain) by lia.
Qed.

(** C1, amended.  For every call [Callers chain n max] with [n >= 0] and
    [max >= 0] whose buffer can be allocated, and with [n <= max] or a
    chain of no more than [max*2] frames, over any chain of frames (with
    line numbers that are [int]s): the first [n] frames of the chain are
    discarded and the following ones, up to [max], are rendered as
    [file:line], the line number in decimal (it reads back as the line
    number), and joined by single spaces, the text ending with the last
    pair; when fewer than [n + max] frames exist the list ends early,
    without a panic, and when none is left to render the slice is [nil].
    The output holds no newline unless the file name of a rendered frame
    does. *)
Theorem Callers_window (chain : list Frame) (n max : Z)
    (Hn : 0 <= n <= maxInt) (Hmax : 0 <= max)
    (Halloc : max * 2 * ptrSize <= maxAlloc)
    (Hreach : n <= max \/ Z.of_nat (length chain) <= max * 2)
    (Hlines : Forall (fun fr => isInt (Line fr)) chain) :
  let window := take (Z.to_nat max) (drop (Z.to_nat n) chain) in
  Callers chain n max = Ok (render window)
  /\ (forall fr, fr ∈ window ->
        itoa (Line fr) = Ok (decimal (Line fr))
        /\ parseInt (decimal (Line fr)) = Some (Line fr))
  /\ (forall out fr,
        render window = Some out -> last window = Some fr ->
        exists pre, out = pre ++ pair_text fr)
  /\ (forall out,
        render window = Some out ->
        (forall fr, fr ∈ window -> newline ∉ File fr) ->
        (newline ∉ out)).
Proof.
  intros window. split.
  { rewrite Callers_render by assumption. unfold window.
    now rewrite window_in_batch by lia. }
  split.
  - assert (Forall (fun fr => isInt (Line fr)) window) as Hwin
      by (now apply Forall_take, Forall_drop).
    rewrite Forall_forall in Hwin. intros fr Hfr.
    pose proof (Hwin fr Hfr) as Hint.
    split; [now apply itoa_decimal|now apply parseInt_decimal].
  - split.
    { intros out fr Hout Hlast. apply render_Some in Hout as ->.
      apply last_Some in Hlast as [l' ->].
      rewrite map_app. apply join_last. }
    intros out Hout Hfiles. apply render_Some in Hout as ->.
    apply notin_join.
    + intros Hin. apply list_elem_of_singleton in Hin. discriminate Hin.
    + apply Forall_map, Forall_forall. intros fr Hfr.
      now apply newline_notin_pair, Hfiles.
Qed.

Lemma Callers_window_witness :
  let chain := [Sample.fA; Sample.fB; Sample.fC; Sample.fD] in
  0 <= 1 <= maxInt /\ 0 <= 2 /\ 2 * 2 * ptrSize <= maxAlloc
  /\ (1 <= 2 \/ Z.of_nat (length chain) <= 2 * 2)
  /\ Forall (fun fr => isInt (Line fr)) chain
  /\ Callers chain 1 2 = Ok (Some (str "b.go:7 c.go:-3")).
Proof.
  intros chain.
  assert (0 <= 1 <= maxInt) as H1 by machine_lia.
  assert (0 <= 2) as H2 by lia.
  assert (2 * 2 * ptrSize <= maxAlloc) as H3 by machine_lia.
  assert (1 <= 2 \/ Z.of_nat (length chain) <= 2 * 2) as H4 by (left; lia).
  assert (Forall (fun fr => isInt (Line fr)) chain) as H5
    by (repeat constructor; unfold isInt, minInt, maxInt; cbn; lia).
  split; [exact H1|]. split; [exact H2|]. split; [exact H3|].
  split; [exact H4|]. split; [exact H5|].
  exact (proj1 (Callers_window chain 1 2 H1 H2 H3 H4 H5)).
Defined.

(** C1 as first worded fails three times: a frame whose file name holds
    a newline puts that newline into the output; a large [max] makes the
    allocation of the buffer panic although [n] and [max] are not
    negative; and with [n = 2] and [max = 1] on four frames nothing is
    listed although the frame behind the two skipped ones exists. *)
Lemma Callers_window_counterexample :
  (exists out, Callers [Sample.fNL] 0 1 = Ok (Some out) /\ newline ∈ out)
  /\ (0 <= 2 ^ 62 <= maxInt /\ Callers [Sample.fA] 0 (2 ^ 62) = Panic)
  /\ (let chain := [Sample.fA; Sample.fB; Sample.fC; Sample.fD] in
      take 1 (drop 2 chain) = [Sample.fC]
      /\ Callers chain 2 1 = Ok None).
Proof.
  split; [|split].
  - eexists. split; [vm_compute; reflexivity|].
    apply (list_elem_of_lookup_2 _ 1%nat). reflexivity.
  - split; [unfold maxInt; lia|vm_compute; reflexivity].
  - split; reflexivity.
Qed.

(** The slice [Callers] builds is never present and empty: every pair
    holds a colon at least. *)
Lemma append_colon b : exists y, append b (str ":") = Some y /\ y <> [].
Proof.
  destruct b as [x|]; cbn; eexists; (split; [reflexivity|]).
  - intros H. now apply app_eq_nil in H as [_ ?].
  - discriminate.
Qed.

Lemma Callers_loop_nonempty trips : forall i n frames b prev,
  b <> Some [] -> Callers_loop trips i n frames b prev <> Ok (Some []).
Proof.
  induction trips as [|trips IH]; intros i n frames b prev Hb; cbn [Callers_loop].
  - congruence.
  - destruct (Next frames) as [[frame more] frames'].
    destruct (n <=? i).
    + destruct (itoa (Line frame)) as [line| |]; cbn -[append str];
        try discriminate.
      destruct (append_colon
                  (append (if prev then append b (str " ") else b) (File frame)))
        as (y & -> & Hy).
      assert (append (Some y) line <> Some []) as Hb'.
      { cbn. intros [= H]. now apply app_eq_nil in H as [? _]. }
      destruct more; [now apply IH|congruence].
    + cbn. destruct more; [now apply IH|congruence].
Qed.

Lemma Callers_never_empty chain n max : Callers chain n max <> Ok (Some []).
Proof.
  unfold Callers. destruct (Callers_batch chain max) as [pc| |]; cbn;
    try discriminate.
  destruct (Z.of_nat (length pc) =? 0); [discriminate|].
  now apply Callers_loop_nonempty.
Qed.

(** C9.  When the frame source yields no frame for the batch, [Callers]
    returns the absent slice [nil], which is an ordinary return and not a
    panic; [nil] is told apart from a present slice of length zero, which
    [Callers] never returns. *)
Theorem Callers_no_frames (chain : list Frame) (n max : Z)
    (Hbatch : Callers_batch chain max = Ok []) :
  Callers chain n max = Ok None
  /\ Ok None <> Ok (Some ([] : bytes))
  /\ forall chain' n' max', Callers chain' n' max' <> Ok (Some []).
Proof.
  split; [|split].
  - unfold Callers. now rewrite Hbatch.
  - discriminate.
  - apply Callers_never_empty.
Qed.

Lemma Callers_no_frames_witness :
  Callers_batch [] 3 = Ok []
  /\ Callers [] 0 3 = Ok None
  /\ Ok None <> Ok (Some ([] : bytes))
  /\ forall chain' n' max', Callers chain' n' max' <> Ok (Some []).
Proof.
  assert (Callers_batch [] 3 = Ok []) as H by reflexivity.
  split; [exact H | exact (Callers_no_frames [] 0 3 H)].
Defined.

(** The batch never holds more than [max*2] program counters, whatever
    the number [n] of frames to skip. *)
Lemma Callers_batch_bound chain max pcs :
  Callers_batch chain max = Ok pcs ->
  Z.of_nat (length pcs) <= wrapI (max * 2).
Proof.
  unfold Callers_batch, make_uintptr.
  destruct (Z.leb_spec 0 (wrapI (max * 2))); cbn; [|discriminate].
  destruct (wrapI (max * 2) * ptrSize <=? maxAlloc); cbn; [|discriminate].
  intros [= <-].
  rewrite length_take, length_app, length_map, length_take, length_drop,
    !length_replicate. lia.
Qed.

(** C7.  The batch is [max*2] program counters, not [(n+max)*2]: with
    [n = 2] and [max = 1] on a chain of four frames, two program counters
    are gathered where the claim has six; the loop meets the end of the
    batch while it still skips, and the frame at depth 2, which the call
    asks for, is not listed. *)
Theorem Callers_batch_ignores_skip :
  let chain := [Sample.fA; Sample.fB; Sample.fC; Sample.fD] in
  Callers_batch chain 1 = Ok [PC Sample.fA; PC Sample.fB]
  /\ Z.of_nat (length [PC Sample.fA; PC Sample.fB]) <> (2 + 1) * 2
  /\ chain !! 2%nat = Some Sample.fC
  /\ Callers chain 2 1 = Ok None.
Proof. repeat split; try reflexivity. discriminate. Qed.

(** ** [stack]: which files are read, and when *)

Section StackRun.

Variable FuncForPC : Z -> option bytes.
Variable ReadFile : bytes -> option bytes.

(** One iteration never panics; it reads the file of the frame exactly
    when that differs from the loaded file, and loads it when the read
    succeeds. *)
Lemma stack_body_reads w fr :
  exists w',
    stack_body FuncForPC ReadFile w fr = Ok w'
    /\ reads w'
       = reads w ++ (if bool_decide (File fr ≠ lastFile w)
                     then [File fr] else [])
    /\ lastFile w'
       = (if bool_decide (File fr ≠ lastFile w)
          then match ReadFile (File fr) with
               | Some _ => File fr
               | None => lastFile w
               end
          else lastFile w).
Proof.
  unfold stack_body, load. cbn [lastFile reads buf lines].
  destruct (bool_decide (File fr ≠ lastFile w)).
  - destruct (ReadFile (File fr)) as [data|].
    + cbn [lastFile reads buf lines].
      destruct (function_total FuncForPC (PC fr)) as [name ->].
      destruct (source_total (Split data newline) (wrapI (Line fr - 1)))
        as [text ->].
      cbn. eauto.
    + eauto.
  - cbn [lastFile reads buf lines].
    destruct (function_total FuncForPC (PC fr)) as [name ->].
    destruct (source_total (lines w) (wrapI (Line fr - 1))) as [text ->].
    cbn. rewrite app_nil_r. eauto.
Qed.

(** A frame whose file cannot be read and is not the loaded one gets its
    location line and nothing else; the failed read leaves the loaded
    file as it was. *)
Lemma stack_body_unreadable w fr :
  ReadFile (File fr) = None -> File fr <> lastFile w ->
  stack_body FuncForPC ReadFile w fr
  = Ok (mkWalk (buf w ++ location fr) (lines w) (lastFile w)
               (reads w ++ [File fr])).
Proof.
  intros Hread Hne. unfold stack_body, load. cbn [lastFile reads buf lines].
  rewrite bool_decide_eq_true_2 by assumption. now rewrite Hread.
Qed.








End StackRun.



(** C6.  A frame whose file name is empty cannot be read, yet it gets the
    second line: the empty name equals the initial value of [lastFile],
    so no read is attempted, the [continue] is not reached, and the line
    is looked up in the empty [lines], which gives the sentinel. *)
Theorem stack_unknown_file_second_line :
  let chain := [Sample.fA; Sample.fB; Sample.fUnknown] in
  Sample.noFiles (File Sample.fUnknown) = None
  /\ stack Sample.noSymbols Sample.noFiles chain
     = Ok (str ":0 (0x1194)" ++ [newline]
           ++ [tab] ++ str "???: ???" ++ [newline])
  /\ (exists w,
        stack_run Sample.noSymbols Sample.noFiles chain = Ok w
        /\ reads w = []).
Proof.
  intros chain. split; [reflexivity|]. split; [vm_compute; reflexivity|].
  eexists. split; [vm_compute; reflexivity|reflexivity].
Qed.

(** * Further properties *)

(** ** The shape of the numerals *)

(** The numeral of a positive number starts with a digit other than
    zero, and its length is the number of decimal digits of the number. *)
Lemma udigits_shape rounds : forall n acc,
  1 <= n < 10 ^ Z.of_nat rounds ->
  exists k t d,
    1 <= k <= 9 /\ udigits rounds n acc = digitChar k :: t
    /\ length (udigits rounds n acc) = (d + length acc)%nat
    /\ (1 <= d <= rounds)%nat
    /\ 10 ^ (Z.of_nat d - 1) <= n < 10 ^ Z.of_nat d.
Proof.
  induction rounds as [|r IH]; intros n acc Hn.
  - change (10 ^ Z.of_nat 0) with 1 in Hn. lia.
  - rewrite Nat2Z.inj_succ, Z.pow_succ_r in Hn by lia. cbn [udigits].
    destruct (Z.ltb_spec n 10) as [Hlt|Hge].
    + exists n, acc, 1%nat. rewrite Z.mod_small by lia.
      repeat split; try solve [cbn; lia].
    + destruct (IH (n / 10) (digitChar (n mod 10) :: acc))
        as (k & t & d & Hk & Hhead & Hlen & Hd & Hpow).
      { split; [apply Z.div_le_lower_bound; lia
               |apply Z.div_lt_upper_bound; lia]. }
      exists k, t, (S d). rewrite Hhead in *. cbn [length] in *.
      repeat split; try lia.
      * replace (Z.of_nat (S d) - 1) with (Z.succ (Z.of_nat d - 1)) by lia.
        rewrite Z.pow_succ_r by lia.
        pose proof (Z.mul_div_le n 10). lia.
      * rewrite Nat2Z.inj_succ, Z.pow_succ_r by lia.
        destruct Hpow as [_ Hup].
        pose proof (Z.mod_pos_bound n 10 eq_refl).
        rewrite (Z.div_mod n 10) by lia. lia.
Qed.

(** X1.  The text [uitoa] gives for a positive [uint] is canonical: it
    starts with a digit other than '0', and it has as many characters as
    the number has decimal digits, twenty at most (the size of the
    buffer). *)
Theorem uitoa_canonical (n : Z) (Hn : 1 <= n <= maxUint) :
  exists s d,
    uitoa n = Ok s
    /\ head s <> Some "0"%char
    /\ length s = d /\ (1 <= d <= 20)%nat
    /\ 10 ^ (Z.of_nat d - 1) <= n < 10 ^ Z.of_nat d.
Proof.
  destruct (udigits_shape 20 n []) as (k & t & d & Hk & Hhead & Hlen & Hd & Hpow).
  { change (10 ^ Z.of_nat 20) with 100000000000000000000. machine_lia. }
  exists (udecimal n), d. unfold udecimal. rewrite Hlen, Hhead.
  split; [rewrite <- Hhead; apply uitoa_udecimal; lia|].
  repeat split; try (cbn [length] in *; lia).
  intros [= Hzero].
  assert (code (digitChar k) = code "0"%char) as Hc by now rewrite Hzero.
  rewrite code_digitChar in Hc by lia.
  change (code "0"%char) with 48 in Hc. lia.
Qed.

Lemma uitoa_canonical_witness :
  1 <= 507 <= maxUint
  /\ exists s d,
       uitoa 507 = Ok s
       /\ head s <> Some "0"%char
       /\ length s = d /\ (1 <= d <= 20)%nat
       /\ 10 ^ (Z.of_nat d - 1) <= 507 < 10 ^ Z.of_nat d.
Proof.
  assert (1 <= 507 <= maxUint) as H by (unfold maxUint; lia).
  split; [exact H | exact (uitoa_canonical 507 H)].
Defined.

(** X2.  [itoa] tells integers apart: two [int]s with the same text are
    the same number. *)
Theorem itoa_injective (n m : Z) (Hn : isInt n) (Hm : isInt m)
    (Heq : itoa n = itoa m) :
  n = m.
Proof.
  rewrite !itoa_decimal in Heq by assumption. injection Heq as Heq.
  pose proof (parseInt_decimal n Hn) as Hpn.
  rewrite Heq, (parseInt_decimal m Hm) in Hpn. congruence.
Qed.

Lemma itoa_injective_witness :
  isInt (-42) /\ isInt (-42) /\ itoa (-42) = itoa (-42) /\ -42 = -42.
Proof.
  assert (isInt (-42)) as H by (unfold isInt, minInt, maxInt; lia).
  split; [exact H|]. split; [exact H|]. split; [reflexivity|].
  exact (itoa_injective (-42) (-42) H H eq_refl).
Defined.

(** ** [itoa] and the verb [%d] *)

(** Case analysis on the digit argument of [dcons], whatever it is. *)
Ltac dcons_destruct :=
  unfold dcons;
  repeat match goal with
         | |- context [match ?x with _ => _ end] => destruct x
         end.

Lemma dcons_cases k : 0 <= k <= 9 ->
  k = 0 \/ k = 1 \/ k = 2 \/ k = 3 \/ k = 4 \/ k = 5 \/ k = 6 \/ k = 7
  \/ k = 8 \/ k = 9.
Proof. lia. Qed.

Ltac each_digit k H :=
  destruct (dcons_cases k H) as [->|[->|[->|[->|[->|[->|[->|[->|[->| ->]]]]]]]]].

Lemma string_dcons k u : 0 <= k <= 9 ->
  DecimalString.NilEmpty.string_of_uint (dcons k u)
  = String (digitChar k) (DecimalString.NilEmpty.string_of_uint u).
Proof. intros H. each_digit k H; reflexivity. Qed.

Lemma usize_dcons k u :
  DecimalPos.Unsigned.usize (dcons k u) = N.succ (DecimalPos.Unsigned.usize u).
Proof. dcons_destruct; reflexivity. Qed.

(** The value of a numeral with one more leading digit. *)
Lemma value_dcons k u : 0 <= k <= 9 ->
  Z.of_N (Pos.of_uint (dcons k u))
  = k * 10 ^ Z.of_N (DecimalPos.Unsigned.usize u) + Z.of_N (Pos.of_uint u).
Proof.
  intros H.
  assert (Decimal.rev (dcons k u) = Decimal.revapp u (dcons k Decimal.Nil))
    as Hrev by (each_digit k H; reflexivity).
  rewrite !DecimalPos.Unsigned.of_uint_alt, Hrev,
    DecimalPos.Unsigned.of_lu_revapp.
  rewrite N2Z.inj_add, N2Z.inj_mul, N2Z.inj_pow.
  assert (Z.of_N (DecimalPos.Unsigned.of_lu (dcons k Decimal.Nil)) = k) as ->
    by (each_digit k H; reflexivity).
  change (Z.of_N 10) with 10. lia.
Qed.

Lemma udigits_uint_text rounds : forall n acc,
  str (DecimalString.NilEmpty.string_of_uint (udigits_uint rounds n acc))
  = udigits rounds n (str (DecimalString.NilEmpty.string_of_uint acc)).
Proof.
  induction rounds as [|r IH]; intros n acc; cbn [udigits udigits_uint].
  - reflexivity.
  - assert (str (DecimalString.NilEmpty.string_of_uint (dcons (n mod 10) acc))
            = digitChar (n mod 10) :: str (DecimalString.NilEmpty.string_of_uint acc)) as Hd.
    { rewrite string_dcons; [reflexivity|].
      pose proof (Z.mod_pos_bound n 10 eq_refl). lia. }
    destruct (n <? 10); [exact Hd|]. now rewrite IH, Hd.
Qed.

Lemma udigits_uint_value rounds : forall n acc,
  0 <= n < 10 ^ Z.of_nat rounds ->
  Z.of_N (Pos.of_uint (udigits_uint rounds n acc))
  = n * 10 ^ Z.of_N (DecimalPos.Unsigned.usize acc) + Z.of_N (Pos.of_uint acc).
Proof.
  induction rounds as [|r IH]; intros n acc Hn; cbn [udigits_uint].
  - change (10 ^ Z.of_nat 0) with 1 in Hn. replace n with 0 by lia. lia.
  - rewrite Nat2Z.inj_succ, Z.pow_succ_r in Hn by lia.
    pose proof (Z.mod_pos_bound n 10 eq_refl) as Hmod.
    destruct (Z.ltb_spec n 10) as [Hlt|Hge].
    + rewrite value_dcons by lia. now rewrite Z.mod_small by lia.
    + rewrite IH
        by (split; [apply Z.div_pos; lia|apply Z.div_lt_upper_bound; lia]).
      rewrite usize_dcons, value_dcons by lia.
      rewrite N2Z.inj_succ, Z.pow_succ_r by lia.
      rewrite (Z.div_mod n 10) at 3 by lia. ring.
Qed.

Lemma udigits_uint_head rounds : forall n acc,
  1 <= n < 10 ^ Z.of_nat rounds ->
  exists k u, 1 <= k <= 9 /\ udigits_uint rounds n acc = dcons k u.
Proof.
  induction rounds as [|r IH]; intros n acc Hn.
  - change (10 ^ Z.of_nat 0) with 1 in Hn. lia.
  - rewrite Nat2Z.inj_succ, Z.pow_succ_r in Hn by lia. cbn [udigits_uint].
    destruct (Z.ltb_spec n 10) as [Hlt|Hge].
    + exists n, acc. rewrite Z.mod_small by lia. split; [lia|reflexivity].
    + apply IH. split; [apply Z.div_le_lower_bound; lia
                       |apply Z.div_lt_upper_bound; lia].
Qed.

Lemma unorm_dcons k u : 1 <= k <= 9 ->
  Decimal.unorm (dcons k u) = dcons k u.
Proof.
  intros H. assert (0 <= k <= 9) as H' by lia.
  each_digit k H'; try reflexivity. lia.
Qed.

Lemma dcons_not_Nil k u : dcons k u <> Decimal.Nil.
Proof. dcons_destruct; discriminate. Qed.

Lemma string_of_uint_not_Nil d :
  d <> Decimal.Nil ->
  DecimalString.NilZero.string_of_uint d
  = DecimalString.NilEmpty.string_of_uint d.
Proof. destruct d; [contradiction|reflexivity..]. Qed.

(** The numeral of [udecimal] is the one the standard library prints. *)
Lemma udecimal_to_uint n :
  0 <= n <= maxUint ->
  udecimal n = str (DecimalString.NilZero.string_of_uint (N.to_uint (Z.to_N n))).
Proof.
  intros Hn. destruct (Z.eq_dec n 0) as [->|Hnz]; [reflexivity|].
  assert (1 <= n < 10 ^ Z.of_nat 20) as Hr.
  { change (10 ^ Z.of_nat 20) with 100000000000000000000. machine_lia. }
  destruct (udigits_uint_head 20 n Decimal.Nil Hr) as (k & u & Hk & Hd).
  assert (N.of_uint (udigits_uint 20 n Decimal.Nil) = Z.to_N n) as Hval.
  { apply N2Z.inj. unfold N.of_uint. rewrite udigits_uint_value by lia.
    cbn. rewrite Z2N.id by lia. lia. }
  rewrite <- Hval, DecimalN.Unsigned.to_of, Hd, unorm_dcons by assumption.
  rewrite string_of_uint_not_Nil by apply dcons_not_Nil.
  rewrite <- Hd. symmetry. apply (udigits_uint_text 20 n Decimal.Nil).
Qed.

Lemma decimal_fmt_d n : isInt n -> decimal n = fmt_d n.
Proof.
  intros Hn. unfold decimal, fmt_d. destruct n as [|p|p].
  - reflexivity.
  - change (Z.pos p <? 0) with false. cbn iota.
    rewrite udecimal_to_uint by machine_lia. reflexivity.
  - change (Z.neg p <? 0) with true. cbn iota.
    rewrite udecimal_to_uint by machine_lia. reflexivity.
Qed.

(** X3.  On every [int], [itoa] gives the text that [fmt]'s verb [%d]
    gives (here: the decimal numeral of the standard library), so the
    line numbers of [Callers] read like those of [stack]. *)
Theorem itoa_agrees_with_fmt_d (n : Z) (Hn : isInt n) :
  itoa n = Ok (fmt_d n).
Proof. rewrite itoa_decimal by assumption. now rewrite decimal_fmt_d. Qed.

Lemma itoa_agrees_with_fmt_d_witness :
  isInt (-9000) /\ itoa (-9000) = Ok (fmt_d (-9000)).
Proof.
  assert (isInt (-9000)) as H by (unfold isInt, minInt, maxInt; lia).
  split; [exact H | exact (itoa_agrees_with_fmt_d (-9000) H)].
Defined.

(** ** More on [source] *)

Lemma source_in_range (lines : list bytes) n line :
  0 <= n -> lines !! Z.to_nat n = Some line ->
  source lines n = Ok (Trim line spaceTab).
Proof.
  intros Hn Hline. unfold source. apply lookup_lt_Some in Hline as Hlt.
  destruct (Z.ltb_spec n 0); [lia|].
  destruct (Z.leb_spec (Z.of_nat (length lines)) n); [lia|]. cbn [orb].
  now rewrite (index_ok _ _ _ Hn Hline).
Qed.

(** X4.  A line that neither starts nor ends with a space or a tab is
    returned as it is: [source] removes nothing inside a line. *)
Theorem source_keeps_trimmed_line (lines : list bytes) (n : Z) (line : bytes)
    (Hn : 0 <= n) (Hline : lines !! Z.to_nat n = Some line)
    (Hhead : forall c, head line = Some c -> ~ blank c)
    (Hlast : forall c, last line = Some c -> ~ blank c) :
  source lines n = Ok line.
Proof.
  rewrite (source_in_range _ _ _ Hn Hline). f_equal.
  destruct (Trim_spec line spaceTab) as (pre & post & Hs & Hpre & Hpost & _ & _).
  destruct pre as [|c pre].
  - destruct (last post) as [c|] eqn:Hp.
    + exfalso. apply last_Some in Hp as [post' ->].
      apply Forall_app in Hpost as [_ Hc]. apply Forall_inv in Hc.
      apply (Hlast c); [|apply inCutset_spaceTab, Hc].
      rewrite Hs. cbn [app]. now rewrite app_assoc, last_snoc.
    + apply last_None in Hp as ->. now rewrite app_nil_r in Hs.
  - exfalso. apply Forall_cons in Hpre as [Hc _].
    apply (Hhead c); [now rewrite Hs|apply inCutset_spaceTab, Hc].
Qed.

Lemma source_keeps_trimmed_line_witness :
  let lines := [str "package debug"; str "x := 1"] in
  0 <= 1 /\ lines !! Z.to_nat 1 = Some (str "x := 1")
  /\ (forall c, head (str "x := 1") = Some c -> ~ blank c)
  /\ (forall c, last (str "x := 1") = Some c -> ~ blank c)
  /\ source lines 1 = Ok (str "x := 1").
Proof.
  intros lines.
  assert (0 <= 1) as H1 by lia.
  assert (lines !! Z.to_nat 1 = Some (str "x := 1")) as H2 by reflexivity.
  assert (forall c, head (str "x := 1") = Some c -> ~ blank c) as H3.
  { intros c [= <-] [H|H]; discriminate H. }
  assert (forall c, last (str "x := 1") = Some c -> ~ blank c) as H4.
  { intros c [= <-] [H|H]; discriminate H. }
  split; [exact H1|]. split; [exact H2|]. split; [exact H3|].
  split; [exact H4|].
  exact (source_keeps_trimmed_line lines 1 (str "x := 1") H1 H2 H3 H4).
Defined.

(** X5.  A line of spaces and tabs only (an empty line too) gives the
    empty text, not the sentinel. *)
Theorem source_blank_line (lines : list bytes) (n : Z) (line : bytes)
    (Hn : 0 <= n) (Hline : lines !! Z.to_nat n = Some line)
    (Hblank : Forall blank line) :
  source lines n = Ok [].
Proof.
  rewrite (source_in_range _ _ _ Hn Hline). f_equal.
  destruct (Trim_spec line spaceTab) as (pre & post & Hs & _ & _ & Hhd & _).
  destruct (Trim line spaceTab) as [|c t]; [reflexivity|].
  exfalso. specialize (Hhd c eq_refl).
  rewrite Hs in Hblank. apply Forall_app in Hblank as [_ Hblank].
  apply Forall_app in Hblank as [Hblank _].
  apply Forall_cons in Hblank as [Hc _].
  apply inCutset_spaceTab in Hc. congruence.
Qed.

Lemma source_blank_line_witness :
  let lines := [str "a"; [" "%char; tab; " "%char]] in
  0 <= 1 /\ lines !! Z.to_nat 1 = Some [" "%char; tab; " "%char]
  /\ Forall blank [" "%char; tab; " "%char]
  /\ source lines 1 = Ok [].
Proof.
  intros lines.
  assert (0 <= 1) as H1 by lia.
  assert (lines !! Z.to_nat 1 = Some [" "%char; tab; " "%char]) as H2
    by reflexivity.
  assert (Forall blank [" "%char; tab; " "%char]) as H3
    by (repeat constructor; unfold blank; auto).
  split; [exact H1|]. split; [exact H2|]. split; [exact H3|].
  exact (source_blank_line lines 1 _ H1 H2 H3).
Defined.

(** ** More on [function] *)

Lemma Replace_from_length s : forall skip,
  (length (Replace_from skip s centerDot dot) <= length s)%nat.
Proof.
  induction s as [|c s IH]; intros skip; cbn [Replace_from]; [lia|].
  destruct skip as [|k].
  - destruct (HasPrefix (c :: s) centerDot).
    + change (length centerDot - 1)%nat with 1%nat.
      rewrite length_app. change (length dot) with 1%nat.
      specialize (IH 1%nat). cbn [length]. lia.
    + cbn [length]. specialize (IH 0%nat). lia.
  - cbn [length]. specialize (IH k). lia.
Qed.

(** X6.  The name [function] returns is never longer than the raw
    symbol name. *)
Theorem function_never_longer (FuncForPC : Z -> option bytes) (pc : Z)
    (s : bytes) (Hlookup : FuncForPC pc = Some s) :
  exists name,
    function FuncForPC pc = Ok name /\ (length name <= length s)%nat.
Proof.
  destruct (function_tail FuncForPC pc s Hlookup) as (tail & Htail & ->).
  eexists. split; [reflexivity|].
  pose proof (Replace_from_length tail 0) as Hlen. unfold Replace.
  destruct Htail as [(pre & -> & _)|[_ ->]]; [|exact Hlen].
  rewrite !length_app. lia.
Qed.

Lemma function_never_longer_witness :
  let raw := str "runtime/debug.*T" ++ centerDot ++ str "ptrmethod" in
  (fun _ : Z => Some raw) 0 = Some raw
  /\ exists name,
       function (fun _ => Some raw) 0 = Ok name
       /\ (length name <= length raw)%nat.
Proof.
  intros raw. split; [reflexivity|].
  exact (function_never_longer (fun _ => Some raw) 0 raw eq_refl).
Defined.

(** X7.  A raw name without a dot and without a center dot is returned
    unchanged. *)
Theorem function_plain_name (FuncForPC : Z -> option bytes) (pc : Z)
    (s : bytes) (Hlookup : FuncForPC pc = Some s)
    (Hdot : "."%char ∉ s) (Hcd : ~ occurs centerDot s) :
  function FuncForPC pc = Ok s.
Proof.
  destruct (function_tail FuncForPC pc s Hlookup) as (tail & Htail & ->).
  destruct Htail as [(pre & -> & _)|[_ ->]].
  - exfalso. apply Hdot. rewrite !elem_of_app. right. left.
    now apply list_elem_of_singleton.
  - f_equal. apply (Replace_join [s]). now repeat constructor.
Qed.

Lemma function_plain_name_witness :
  (fun _ : Z => Some (str "main")) 0 = Some (str "main")
  /\ ("."%char ∉ str "main") /\ ~ occurs centerDot (str "main")
  /\ function (fun _ => Some (str "main")) 0 = Ok (str "main").
Proof.
  assert ("."%char ∉ str "main") as H2.
  { intros H. repeat (apply elem_of_cons in H as [H|H]; [discriminate H|]).
    now apply elem_of_nil in H. }
  assert (~ occurs centerDot (str "main")) as H3.
  { intros H.
    repeat (apply occurs_cons_inv in H as [[post H]|H]; [discriminate H|]).
    now apply occurs_nil in H. }
  split; [reflexivity|]. split; [exact H2|]. split; [exact H3|].
  exact (function_plain_name (fun _ => Some (str "main")) 0 (str "main")
           eq_refl H2 H3).
Defined.

(** ** More on [Callers] *)

Lemma itoa_total v : exists s, itoa v = Ok s.
Proof.
  assert (forall x, exists s, uitoa (uint_of_int x) = Ok s) as Hu.
  { intros x. eexists. apply uitoa_udecimal. unfold uint_of_int, wrapU, maxUint.
    pose proof (Z.mod_pos_bound x (2 ^ 64) eq_refl). lia. }
  unfold itoa. destruct (v <? 0).
  - destruct (Hu (wrapI (- v))) as [s ->]. cbn. eauto.
  - apply Hu.
Qed.

(** The loop of [Callers] always runs to its end. *)
Lemma Callers_loop_total trips : forall i n frames b prev,
  exists b', Callers_loop trips i n frames b prev = Ok b'.
Proof.
  induction trips as [|trips IH]; intros i n frames b prev; cbn [Callers_loop].
  - eauto.
  - destruct (Next frames) as [[frame more] frames'].
    destruct (n <=? i).
    + destruct (itoa_total (Line frame)) as [s ->]. cbn -[append str].
      destruct more; eauto.
    + cbn. destruct more; eauto.
Qed.

(** X8.  [Callers] panics exactly when the buffer of [max*2] program
    counters cannot be made: when [max*2], computed in [int], is negative
    or too large for the allocator, and for no other reason; in
    particular it panics for every negative [max] down to -2^62. *)
Theorem Callers_panics_iff (chain : list Frame) (n max : Z) :
  (Callers chain n max = Panic
   <-> (wrapI (max * 2) < 0 \/ maxAlloc < wrapI (max * 2) * ptrSize))
  /\ Callers chain n max <> OutOfFuel
  /\ (- 2 ^ 62 <= max < 0 -> Callers chain n max = Panic).
Proof.
  assert (Callers chain n max = Panic
          <-> (wrapI (max * 2) < 0 \/ maxAlloc < wrapI (max * 2) * ptrSize))
    as Hiff.
  { unfold Callers, Callers_batch, make_uintptr.
    destruct (Z.leb_spec 0 (wrapI (max * 2))) as [Hpos|Hneg]; cbn [andb].
    - destruct (Z.leb_spec (wrapI (max * 2) * ptrSize) maxAlloc) as [Hfit|Hbig].
      + cbn. split; [|lia].
        destruct (Z.of_nat _ =? 0); [discriminate|].
        match goal with
        | |- Callers_loop ?t ?i ?n ?f ?b ?p = _ -> _ =>
            destruct (Callers_loop_total t i n f b p) as [b' ->]
        end.
        discriminate.
      + cbn. split; [lia|reflexivity].
    - cbn. split; [lia|reflexivity]. }
  split; [exact Hiff|]. split.
  - unfold Callers, Callers_batch.
    destruct (make_uintptr (wrapI (max * 2))) as [pc| |] eqn:E; cbn;
      [|discriminate|].
    + destruct (Z.of_nat _ =? 0); [discriminate|].
      match goal with
      | |- Callers_loop ?t ?i ?n ?f ?b ?p <> _ =>
          destruct (Callers_loop_total t i n f b p) as [b' ->]
      end. discriminate.
    + unfold make_uintptr in E. now destruct (_ && _).
  - intros Hmax. apply Hiff. left.
    rewrite wrapI_small by machine_lia. lia.
Qed.

(** The iterations that skip: as long as the frames left are no more
    than the frames still to skip, nothing is listed. *)
Lemma Callers_loop_all_skipped trips : forall frames i n,
  frames <> [] -> Z.of_nat (length frames) <= n - i ->
  Callers_loop trips i n frames None false = Ok None.
Proof.
  induction trips as [|trips IH]; intros frames i n Hne Hlen; [reflexivity|].
  destruct frames as [|fr rest]; [contradiction|].
  cbn [Callers_loop Next]. cbn [length] in Hlen.
  destruct (Z.leb_spec n i); [lia|]. cbn.
  destruct rest as [|fr' rest]; [reflexivity|].
  apply IH; [discriminate|cbn [length] in *; lia].
Qed.

(** X9.  When the number [n] of frames to skip is [max*2] or more, the
    result is [nil] whatever the depth of the call chain: the batch of
    [max*2] program counters ends before the skipping does. *)
Theorem Callers_skip_beyond_batch (chain : list Frame) (n max : Z)
    (Hmax : 0 <= max) (Halloc : max * 2 * ptrSize <= maxAlloc)
    (Hn : max * 2 <= n) :
  Callers chain n max = Ok None.
Proof.
  destruct (Callers_batch_ok chain max Hmax Halloc) as (pcs & Hbatch & Hlen).
  unfold Callers. rewrite Hbatch. cbn.
  destruct (Z.eqb_spec (Z.of_nat (length pcs)) 0) as [_|Hnz]; [reflexivity|].
  apply Callers_loop_all_skipped.
  - unfold runtime_CallersFrames. intros E.
    apply (f_equal length) in E. rewrite length_take in E. cbn in E. lia.
  - unfold runtime_CallersFrames. rewrite length_take. lia.
Qed.

Lemma Callers_skip_beyond_batch_witness :
  let chain := [Sample.fA; Sample.fB; Sample.fC; Sample.fD] in
  0 <= 1 /\ 1 * 2 * ptrSize <= maxAlloc /\ 1 * 2 <= 3
  /\ Callers chain 3 1 = Ok None.
Proof.
  intros chain.
  assert (0 <= 1) as H1 by lia.
  assert (1 * 2 * ptrSize <= maxAlloc) as H2 by (unfold ptrSize, maxAlloc; lia).
  assert (1 * 2 <= 3) as H3 by lia.
  split; [exact H1|]. split; [exact H2|]. split; [exact H3|].
  exact (Callers_skip_beyond_batch chain 3 1 H1 H2 H3).
Defined.

(** X10.  A negative [n] skips nothing and shortens the list: the pairs
    of the first [n + max] frames are listed (none when [n + max] is not
    positive). *)
Theorem Callers_negative_skip (chain : list Frame) (n max : Z)
    (Hn : minInt <= n < 0) (Hmax : 0 <= max)
    (Halloc : max * 2 * ptrSize <= maxAlloc)
    (Hlines : Forall (fun fr => isInt (Line fr)) chain) :
  Callers chain n max = Ok (render (take (Z.to_nat (n + max)) chain)).
Proof.
  destruct (Callers_batch_ok chain max Hmax Halloc) as (pcs & Hbatch & Hlen).
  unfold Callers. rewrite Hbatch. cbn.
  unfold runtime_CallersFrames. rewrite Hlen.
  unfold ptrSize, maxAlloc in Halloc.
  destruct (Z.eqb_spec (Z.of_nat (Z.to_nat (max * 2) `min` length chain)) 0)
    as [Hzero|Hnz].
  { replace (take (Z.to_nat (n + max)) chain) with (@nil Frame); [reflexivity|].
    symmetry. apply length_zero_iff_nil. rewrite length_take. lia. }
  rewrite wrapI_small by machine_lia.
  rewrite Callers_loop_skip.
  - replace (Z.to_nat (n - 0)) with 0%nat by lia.
    rewrite Nat.sub_0_r, drop_0, emit_render, take_take.
    f_equal. f_equal.
    destruct (Nat.le_gt_cases (Z.to_nat (n + max)) (length chain)) as [Hle|Hgt].
    + f_equal. lia.
    + rewrite !take_ge by lia. reflexivity.
  - intros E. apply (f_equal length) in E. rewrite length_take in E.
    cbn in E. lia.
  - now apply Forall_take.
Qed.

Lemma Callers_negative_skip_witness :
  let chain := [Sample.fA; Sample.fB; Sample.fC; Sample.fD] in
  minInt <= -1 < 0 /\ 0 <= 3 /\ 3 * 2 * ptrSize <= maxAlloc
  /\ Forall (fun fr => isInt (Line fr)) chain
  /\ Callers chain (-1) 3 = Ok (Some (str "a.go:10 b.go:7")).
Proof.
  intros chain.
  assert (minInt <= -1 < 0) as H1 by (unfold minInt; lia).
  assert (0 <= 3) as H2 by lia.
  assert (3 * 2 * ptrSize <= maxAlloc) as H3 by (unfold ptrSize, maxAlloc; lia).
  assert (Forall (fun fr => isInt (Line fr)) chain) as H4
    by (repeat constructor; unfold isInt, minInt, maxInt; cbn; lia).
  split; [exact H1|]. split; [exact H2|]. split; [exact H3|].
  split; [exact H4|].
  exact (Callers_negative_skip chain (-1) 3 H1 H2 H3 H4).
Defined.

(** *** Splitting the list again *)







(** ** More on [stack] *)

Lemma after_first_dot_found pre tail :
  "."%char ∉ pre -> after_first_dot (pre ++ dot ++ tail) = Some tail.
Proof.
  induction pre as [|c pre IH]; intros Hpre; [reflexivity|].
  apply not_elem_of_cons in Hpre as [Hc Hpre]. cbn [app after_first_dot].
  destruct (Ascii.eqb_spec c ".") as [->|_]; [contradiction|]. now apply IH.
Qed.

Lemma after_first_dot_none s : "."%char ∉ s -> after_first_dot s = None.
Proof.
  induction s as [|c s IH]; intros Hs; [reflexivity|].
  apply not_elem_of_cons in Hs as [Hc Hs]. cbn [after_first_dot].
  destruct (Ascii.eqb_spec c ".") as [->|_]; [contradiction|]. now apply IH.
Qed.

(** [function] computes the documented name. *)
Lemma function_display (FuncForPC : Z -> option bytes) pc :
  function FuncForPC pc = Ok (display_name FuncForPC pc).
Proof.
  unfold display_name. destruct (FuncForPC pc) as [s|] eqn:E.
  - destruct (function_tail FuncForPC pc s E) as (tail & Htail & ->).
    destruct Htail as [(pre & -> & Hpre)|[Hs ->]].
    + now rewrite after_first_dot_found.
    + now rewrite after_first_dot_none.
  - unfold function. now rewrite E.
Qed.

(** The line shown for line number [k] after the conversion [line--]. *)
Lemma source_line_text data k :
  0 <= k <= maxInt ->
  source (Split data newline) (wrapI (k - 1)) = Ok (line_text data k).
Proof.
  intros Hk. rewrite wrapI_small by machine_lia. unfold line_text, source.
  destruct (Z.leb_spec 1 k) as [Hpos|Hzero].
  - destruct (Z.ltb_spec (k - 1) 0); [lia|]. cbn [orb].
    destruct (Z.leb_spec (Z.of_nat (length (Split data newline))) (k - 1))
      as [Hge|Hlt].
    + rewrite lookup_ge_None_2 by lia. reflexivity.
    + destruct (lookup_lt_is_Some_2 (Split data newline) (Z.to_nat (k - 1)))
        as [line Hline]; [lia|].
      assert (0 <= k - 1) as Hk1 by lia.
      rewrite Hline, (index_ok _ _ _ Hk1 Hline). reflexivity.
  - destruct (Z.ltb_spec (k - 1) 0); [reflexivity|lia].
Qed.

Section StackFormat.

Variable FuncForPC : Z -> option bytes.
Variable ReadFile : bytes -> option bytes.

(** One iteration appends the location line of the frame and at most one
    more line, and never panics. *)
Lemma stack_body_shape w fr :
  exists w' t,
    stack_body FuncForPC ReadFile w fr = Ok w'
    /\ buf w' = buf w ++ location fr ++ t
    /\ (t = [] \/ exists name text, t = second_line name text).
Proof.
  unfold stack_body, load. cbn [lastFile reads buf lines].
  destruct (bool_decide (File fr ≠ lastFile w)).
  - destruct (ReadFile (File fr)) as [data|].
    + cbn [lastFile reads buf lines].
      destruct (function_total FuncForPC (PC fr)) as [name ->].
      destruct (source_total (Split data newline) (wrapI (Line fr - 1)))
        as [text ->].
      cbn -[location]. do 2 eexists. split; [reflexivity|]. cbn [buf].
      rewrite <- app_assoc. eauto.
    + do 2 eexists. split; [reflexivity|]. cbn [buf].
      rewrite app_nil_r. eauto.
  - cbn [lastFile reads buf lines].
    destruct (function_total FuncForPC (PC fr)) as [name ->].
    destruct (source_total (lines w) (wrapI (Line fr - 1))) as [text ->].
    cbn -[location]. do 2 eexists. split; [reflexivity|]. cbn [buf].
    rewrite <- app_assoc. eauto.
Qed.

Lemma stack_loop_shape frames : forall w,
  exists w' tails,
    stack_loop FuncForPC ReadFile frames w = Ok w'
    /\ length tails = length frames
    /\ buf w'
       = buf w ++ concat (zip_with (fun fr t => location fr ++ t) frames tails)
    /\ Forall (fun t => t = [] \/ exists name text, t = second_line name text)
              tails.
Proof.
  induction frames as [|fr frames IH]; intros w; cbn [stack_loop].
  - exists w, []. cbn. rewrite app_nil_r. auto.
  - destruct (stack_body_shape w fr) as (w1 & t & -> & Hbuf & Ht).
    cbn -[location].
    destruct (IH w1) as (w' & tails & -> & Hlen & Hbuf' & Htails).
    exists w', (t :: tails). cbn [length zip_with concat].
    rewrite Hbuf', Hbuf, <- !app_assoc. auto.
Qed.

Lemma Split_pieces_no_sep (s : bytes) sep :
  Forall (fun piece : bytes => sep ∉ piece) (Split s sep).
Proof.
  induction s as [|c s IH]; cbn [Split].
  - repeat constructor. apply not_elem_of_nil.
  - destruct (Ascii.eqb_spec c sep) as [->|Hc].
    + constructor; [apply not_elem_of_nil|exact IH].
    + destruct (Split s sep) as [|piece pieces].
      * repeat constructor. intros Hin.
        apply list_elem_of_singleton in Hin. congruence.
      * apply Forall_cons in IH as [Hpiece Hpieces].
        constructor; [|exact Hpieces].
        apply not_elem_of_cons. split; [congruence|exact Hpiece].
Qed.

Lemma Trim_elem (s cutset : bytes) c : c ∈ Trim s cutset -> c ∈ s.
Proof.
  intros Hc. destruct (Trim_spec s cutset) as (pre & post & Hs & _).
  rewrite Hs, !elem_of_app. auto.
Qed.

(** The text [source] returns for lines without newline holds none. *)
Lemma source_no_newline (ls : list bytes) n text :
  Forall (fun l : bytes => newline ∉ l) ls ->
  source ls n = Ok text -> newline ∉ text.
Proof.
  intros Hls. unfold source.
  destruct ((n <? 0) || (Z.of_nat (length ls) <=? n)).
  - intros [= <-] Hin.
    repeat (apply elem_of_cons in Hin as [Hin|Hin]; [discriminate Hin|]).
    now apply elem_of_nil in Hin.
  - unfold index. destruct (_ && _); [|discriminate].
    destruct (ls !! Z.to_nat n) as [l|] eqn:El; [|discriminate].
    cbn. intros [= <-] Hin. apply Trim_elem in Hin.
    rewrite Forall_forall in Hls.
    now apply (Hls l (list_elem_of_lookup_2 _ _ _ El)).
Qed.

Lemma Replace_from_elem s c : forall skip,
  c ∈ Replace_from skip s centerDot dot -> c ∈ s \/ c = "."%char.
Proof.
  induction s as [|x s IH]; intros skip; cbn [Replace_from].
  - intros Hin. now apply elem_of_nil in Hin.
  - destruct skip as [|k].
    + destruct (HasPrefix (x :: s) centerDot).
      * intros Hin. apply elem_of_app in Hin as [Hin|Hin].
        -- right. now apply list_elem_of_singleton in Hin.
        -- apply IH in Hin as [Hin|Hin]; [left; now apply elem_of_cons; right|auto].
      * intros Hin. apply elem_of_cons in Hin as [->|Hin].
        -- left. now apply elem_of_cons; left.
        -- apply IH in Hin as [Hin|Hin]; [left; now apply elem_of_cons; right|auto].
    + intros Hin. apply IH in Hin as [Hin|Hin];
        [left; now apply elem_of_cons; right|auto].
Qed.

Lemma after_first_dot_elem s : forall t c,
  after_first_dot s = Some t -> c ∈ t -> c ∈ s.
Proof.
  induction s as [|x s IH]; intros t c; cbn [after_first_dot]; [discriminate|].
  destruct (Ascii.eqb x "."); intros Ht Hc; apply elem_of_cons; right.
  - now injection Ht as <-.
  - now apply (IH t).
Qed.

(** The cleaned-up name holds no newline when the raw names hold none. *)
Lemma display_name_no_newline pc :
  (forall pc s, FuncForPC pc = Some s -> newline ∉ s) ->
  newline ∉ display_name FuncForPC pc.
Proof.
  intros Hnames. unfold display_name.
  destruct (FuncForPC pc) as [s|] eqn:E.
  - intros Hin. apply Replace_from_elem in Hin as [Hin|Hin]; [|discriminate Hin].
    apply (Hnames pc s E).
    destruct (after_first_dot s) as [t|] eqn:Et; cbn in Hin; [|exact Hin].
    now apply (after_first_dot_elem s t).
  - intros Hin.
    repeat (apply elem_of_cons in Hin as [Hin|Hin]; [discriminate Hin|]).
    now apply elem_of_nil in Hin.
Qed.

(** One iteration, in full: what is appended behind the location line is
    nothing, or the line of the function name of the frame with a text
    that holds no newline. *)
Lemma stack_body_tail w fr :
  Forall (fun l : bytes => newline ∉ l) (lines w) ->
  exists w' t,
    stack_body FuncForPC ReadFile w fr = Ok w'
    /\ buf w' = buf w ++ location fr ++ t
    /\ (t = []
        \/ exists text,
             t = second_line (display_name FuncForPC (PC fr)) text
             /\ (newline ∉ text))
    /\ Forall (fun l : bytes => newline ∉ l) (lines w').
Proof.
  intros Hw. unfold stack_body, load. cbn [lastFile reads buf lines].
  destruct (bool_decide (File fr ≠ lastFile w)).
  - destruct (ReadFile (File fr)) as [data|].
    + cbn [lastFile reads buf lines]. rewrite function_display.
      destruct (source_total (Split data newline) (wrapI (Line fr - 1)))
        as [text Htext].
      rewrite Htext. cbn -[location].
      do 2 eexists. split; [reflexivity|]. cbn [buf lines].
      split; [now rewrite <- app_assoc|].
      split; [|apply Split_pieces_no_sep].
      right. exists text. split; [reflexivity|].
      exact (source_no_newline _ _ _ (Split_pieces_no_sep data newline) Htext).
    + do 2 eexists. split; [reflexivity|]. cbn [buf lines].
      rewrite app_nil_r. auto.
  - cbn [lastFile reads buf lines]. rewrite function_display.
    destruct (source_total (lines w) (wrapI (Line fr - 1))) as [text Htext].
    rewrite Htext. cbn -[location].
    do 2 eexists. split; [reflexivity|]. cbn [buf lines].
    split; [now rewrite <- app_assoc|]. split; [|exact Hw].
    right. exists text. split; [reflexivity|].
    exact (source_no_newline _ _ _ Hw Htext).
Qed.

Lemma stack_loop_tails frames : forall w,
  Forall (fun l : bytes => newline ∉ l) (lines w) ->
  exists w' tails,
    stack_loop FuncForPC ReadFile frames w = Ok w'
    /\ buf w'
       = buf w ++ concat (zip_with (fun fr t => location fr ++ t) frames tails)
    /\ Forall2 (fun fr t =>
                  t = []
                  \/ exists text,
                       t = second_line (display_name FuncForPC (PC fr)) text
                       /\ (newline ∉ text))
               frames tails.
Proof.
  induction frames as [|fr frames IH]; intros w Hw; cbn [stack_loop].
  - exists w, []. cbn. rewrite app_nil_r. auto.
  - destruct (stack_body_tail w fr Hw) as (w1 & t & -> & Hbuf & Ht & Hw1).
    cbn -[location].
    destruct (IH w1 Hw1) as (w' & tails & -> & Hbuf' & Htails).
    exists w', (t :: tails). cbn [zip_with concat].
    rewrite Hbuf', Hbuf, <- !app_assoc. auto.
Qed.

(** X12.  [stack] never panics, whatever the call chain, the symbol
    table and the files.  Its output is, frame by frame from the third
    frame of the chain on and in order, the location line of the frame
    followed by nothing or by: tab, the name [function] gives for the
    frame, colon, space, a text without newline, newline.  When no raw
    symbol name holds a newline, that addition is exactly one line: a
    stretch without newline and the newline that ends it.  A chain of two
    frames or fewer gives the empty trace. *)
Theorem stack_shape (chain : list Frame) :
  exists tails,
    stack FuncForPC ReadFile chain
    = Ok (concat (zip_with (fun fr t => location fr ++ t) (drop 2 chain) tails))
    /\ Forall2 (fun fr t =>
                  t = []
                  \/ exists text,
                       t = second_line (display_name FuncForPC (PC fr)) text
                       /\ (newline ∉ text))
               (drop 2 chain) tails
    /\ ((forall pc s, FuncForPC pc = Some s -> newline ∉ s) ->
        Forall (fun t =>
                  t = []
                  \/ exists body, t = body ++ [newline] /\ (newline ∉ body))
               tails).
Proof.
  unfold stack, stack_run.
  destruct (stack_loop_tails (drop 2 chain) walk0)
    as (w & tails & -> & Hbuf & Htails); [constructor|].
  exists tails. cbn. rewrite Hbuf. split; [reflexivity|].
  split; [exact Htails|]. intros Hnames.
  clear Hbuf.
  induction Htails as [|fr t frames tails Ht _ IH]; [constructor|].
  constructor; [|exact IH].
  destruct Ht as [->|(text & -> & Htext)]; [now left|right].
  exists ([tab] ++ display_name FuncForPC (PC fr) ++ str ": " ++ text).
  split; [unfold second_line; now rewrite <- !app_assoc|].
  rewrite !not_elem_of_app. repeat split.
  - intros Hin. apply list_elem_of_singleton in Hin. discriminate Hin.
  - now apply display_name_no_newline.
  - intros Hin.
    repeat (apply elem_of_cons in Hin as [Hin|Hin]; [discriminate Hin|]).
    now apply elem_of_nil in Hin.
  - exact Htext.
Qed.

(** One iteration on a frame with a file name: the block of the frame is
    appended, whether its file was loaded before or is read now. *)
Lemma stack_body_block w fr :
  cache_ok ReadFile w -> File fr <> [] -> 0 <= Line fr <= maxInt ->
  exists w',
    stack_body FuncForPC ReadFile w fr = Ok w'
    /\ buf w' = buf w ++ block FuncForPC ReadFile fr
    /\ cache_ok ReadFile w'.
Proof.
  intros Hw Hfile Hline. unfold stack_body, load, block.
  cbn [lastFile reads buf lines].
  destruct (bool_decide_reflect (File fr ≠ lastFile w)) as [Hne|Heq].
  - destruct (ReadFile (File fr)) as [data|] eqn:E.
    + cbn [lastFile reads buf lines].
      rewrite function_display, source_line_text by assumption.
      cbn -[location]. eexists. split; [reflexivity|]. cbn [buf].
      split; [now rewrite <- app_assoc|].
      right. exists data. cbn [lastFile lines]. auto.
    + eexists. split; [reflexivity|]. cbn [buf].
      split; [now rewrite app_nil_r|].
      destruct Hw as [Hw|Hw]; [left|right]; exact Hw.
  - assert (File fr = lastFile w) as Hsame
      by (destruct (decide (File fr = lastFile w)); [assumption|contradiction]).
    destruct Hw as [[Hw _]|(data & Hdata & Hlines)]; [congruence|].
    cbn [lastFile reads buf lines].
    rewrite Hsame, Hdata, Hlines.
    rewrite function_display, source_line_text by assumption.
    cbn -[location]. eexists. split; [reflexivity|]. cbn [buf].
    split; [now rewrite <- app_assoc|].
    right. exists data. auto.
Qed.

Lemma stack_loop_blocks frames : forall w,
  cache_ok ReadFile w ->
  Forall (fun fr => File fr <> [] /\ 0 <= Line fr <= maxInt) frames ->
  exists w',
    stack_loop FuncForPC ReadFile frames w = Ok w'
    /\ buf w' = buf w ++ concat (map (block FuncForPC ReadFile) frames).
Proof.
  induction frames as [|fr frames IH]; intros w Hw Hall; cbn [stack_loop].
  - exists w. cbn. now rewrite app_nil_r.
  - apply Forall_cons in Hall as [[Hfile Hline] Hall].
    destruct (stack_body_block w fr Hw Hfile Hline) as (w1 & -> & Hbuf & Hw1).
    cbn -[block].
    destruct (IH w1 Hw1 Hall) as (w' & -> & Hbuf').
    exists w'. split; [reflexivity|].
    cbn [map concat]. now rewrite Hbuf', Hbuf, <- app_assoc.
Qed.

(** X13.  Keeping the last file loaded does not show in the trace: when
    every printed frame has a file name (and a line number that is a
    non-negative [int]), the output is exactly one block for each frame,
    each computed from the frame alone: the location line, and, when the
    file can be read, the line with the cleaned-up function name and with
    line [Line] (counted from 1) of the file, trimmed, or "???" when the
    file has no such line. *)
Theorem stack_format (chain : list Frame)
    (Hframes : Forall (fun fr => File fr <> [] /\ 0 <= Line fr <= maxInt)
                      (drop 2 chain)) :
  stack FuncForPC ReadFile chain
  = Ok (concat (map (block FuncForPC ReadFile) (drop 2 chain))).
Proof.
  unfold stack, stack_run.
  destruct (stack_loop_blocks (drop 2 chain) walk0) as (w & -> & Hbuf).
  - left. auto.
  - exact Hframes.
  - cbn. now rewrite Hbuf.
Qed.

(** Frames in the loaded file cost no read. *)
Lemma stack_loop_loaded frames file : forall w,
  Forall (fun fr => File fr = file) frames -> lastFile w = file ->
  exists w',
    stack_loop FuncForPC ReadFile frames w = Ok w'
    /\ reads w' = reads w /\ lastFile w' = file.
Proof.
  induction frames as [|fr frames IH]; intros w Hall Hlast; cbn [stack_loop].
  - eauto.
  - apply Forall_cons in Hall as [Hfr Hall].
    destruct (stack_body_reads FuncForPC ReadFile w fr)
      as (w1 & -> & Hreads & Hlast1). cbn.
    rewrite bool_decide_eq_false_2 in Hreads, Hlast1 by (intros H; congruence).
    rewrite app_nil_r in Hreads.
    destruct (IH w1 Hall) as (w' & -> & Hreads' & Hlast'); [congruence|].
    exists w'. split; [reflexivity|]. split; congruence.
Qed.

(** X14.  A trace whose printed frames all lie in one file that can be
    read reads that file once, however many frames there are. *)
Theorem stack_reads_file_once (chain : list Frame) (file data : bytes)
    (Hfile : ReadFile file = Some data) (Hname : file <> [])
    (Hall : Forall (fun fr => File fr = file) (drop 2 chain))
    (Hsome : drop 2 chain <> []) :
  exists w,
    stack_run FuncForPC ReadFile chain = Ok w /\ reads w = [file].
Proof.
  unfold stack_run. destruct (drop 2 chain) as [|fr frames]; [contradiction|].
  apply Forall_cons in Hall as [Hfr Hall]. cbn [stack_loop].
  destruct (stack_body_reads FuncForPC ReadFile walk0 fr)
    as (w1 & -> & Hreads & Hlast). cbn.
  rewrite bool_decide_eq_true_2 in Hreads, Hlast
    by (cbn; intros H; congruence).
  rewrite Hfr, Hfile in Hlast. cbn in Hreads. rewrite Hfr in Hreads.
  destruct (stack_loop_loaded frames file w1 Hall Hlast)
    as (w' & -> & Hreads' & _).
  exists w'. split; [reflexivity|congruence].
Qed.

End StackFormat.

Lemma stack_format_witness :
  let chain := [Sample.fB; Sample.fB; Sample.fA2; Sample.fX1; Sample.fA3] in
  Forall (fun fr => File fr <> [] /\ 0 <= Line fr <= maxInt) (drop 2 chain)
  /\ stack Sample.oneSymbol Sample.oneFile chain
     = Ok (str "a.go:2 (0x1000)" ++ [newline]
           ++ [tab] ++ str "Type.Method: x := 1" ++ [newline]
           ++ str "gone.go:5 (0x11f8)" ++ [newline]
           ++ str "a.go:1 (0x1008)" ++ [newline]
           ++ [tab] ++ str "???: package a" ++ [newline]).
Proof.
  intros chain.
  assert (Forall (fun fr => File fr <> [] /\ 0 <= Line fr <= maxInt)
                 (drop 2 chain)) as H.
  { repeat constructor; try discriminate; unfold maxInt; cbn; lia. }
  split; [exact H|].
  exact (stack_format Sample.oneSymbol Sample.oneFile chain H).
Defined.

Lemma stack_reads_file_once_witness :
  let chain := [Sample.fB; Sample.fB; Sample.fA2; Sample.fA3; Sample.fA2] in
  Sample.oneFile (str "a.go") = Some Sample.aGo
  /\ str "a.go" <> []
  /\ Forall (fun fr => File fr = str "a.go") (drop 2 chain)
  /\ drop 2 chain <> []
  /\ exists w,
       stack_run Sample.oneSymbol Sample.oneFile chain = Ok w
       /\ reads w = [str "a.go"].
Proof.
  intros chain.
  assert (Sample.oneFile (str "a.go") = Some Sample.aGo) as H1 by reflexivity.
  assert (str "a.go" <> []) as H2 by discriminate.
  assert (Forall (fun fr => File fr = str "a.go") (drop 2 chain)) as H3
    by (repeat constructor).
  assert (drop 2 chain <> []) as H4 by discriminate.
  split; [exact H1|]. split; [exact H2|]. split; [exact H3|].
  split; [exact H4|].
  exact (stack_reads_file_once Sample.oneSymbol Sample.oneFile chain
           (str "a.go") Sample.aGo H1 H2 H3 H4).
Defined.

(** [PrintStack] writes what [Stack] returns behind what standard error
    holds already. *)
Lemma PrintStack_writes_Stack FuncForPC ReadFile stderr chain :
  exists out,
    Stack FuncForPC ReadFile chain = Ok out
    /\ PrintStack FuncForPC ReadFile stderr chain = Ok (stderr ++ out).
Proof.
  unfold PrintStack, Stack, stack, stack_run.
  destruct (stack_loop_shape FuncForPC ReadFile (drop 2 chain) walk0)
    as (w & tails & -> & _). cbn. eauto.
Qed.
